(** * RedisTaggedCache: reference indexing and bulk invalidation

    A shallow embedding of [src/RedisTaggedCache.js].

    A promise-returning method is a computation in a state-and-error monad
    over a [World]: the Redis keyspace, the trace of the commands sent to
    the collaborators and of their answers, and a fault plan.  Every command
    that is answered takes the next entry of the plan; [true] rejects the
    command and leaves the keyspace as it was.  The theorems quantify over
    the world, hence over every fault plan.

    Keys are the names the commands carry.  The promises of one
    [Promise.all] are run one after the other in array order, each to its
    own end whatever becomes of the others; only the window of calls in
    flight of [Promise.map] is modelled as overlapping.  Statements about
    commands started together are therefore made up to their order, and
    the error of a rejected join is named only as the error of one of its
    rejected promises. *)

From Stdlib Require Import Ascii Floats.
From stdpp Require Import gmap strings list pretty.

(** ** Constants *)

Definition REFERENCE_KEY_FOREVER : string := "forever_ref".
Definition REFERENCE_KEY_STANDARD : string := "standard_ref".

(** The two expiration classes of the specification and their tokens. *)
Inductive ExpirationClass := Forever | Standard.

Definition token (c : ExpirationClass) : string :=
  match c with
  | Forever => REFERENCE_KEY_FOREVER
  | Standard => REFERENCE_KEY_STANDARD
  end.

(** ** JavaScript values used by the facade *)

(** A parameter of flow type [?number]: [undefined], [null] or a double. *)
Inductive maybe_number :=
| Undefined
| Null
| Num (f : float).

(** ToBoolean: a number is falsy exactly when it is [+0], [-0] or [NaN]. *)
Definition truthy (v : maybe_number) : bool :=
  match v with
  | Undefined | Null => false
  | Num f => negb (PrimFloat.eqb f 0%float || PrimFloat.is_nan f)
  end.

(** [String.prototype.split] with a one-character separator: always at
    least one piece, empty pieces kept. *)
Fixpoint split (sep : Ascii.ascii) (s : string) : list string :=
  match s with
  | EmptyString => [EmptyString]
  | String c rest =>
      if Ascii.eqb c sep then EmptyString :: split sep rest
      else match split sep rest with
           | [] => [String c EmptyString]
           | seg :: segs => String c seg :: segs
           end
  end.

(** [Array.prototype.slice(from, to)] for in-range non-negative bounds. *)
Definition slice {A} (array : list A) (from to : nat) : list A :=
  take (to - from) (drop from array).

(** The [for] loop of [chunkArray]; [None] when the fuel runs out before
    the loop condition fails. *)
Fixpoint chunk_loop {A} (fuel i : nat) (array : list A) (chunkSize : nat)
    (output : list (list A)) : option (list (list A)) :=
  match fuel with
  | O => None
  | S fuel' =>
      if Nat.ltb i (length array)
      then chunk_loop fuel' (i + chunkSize) array chunkSize
             (output ++ [slice array i (i + chunkSize)])
      else Some output
  end.

Definition chunkArray {A} (array : list A) (chunkSize : nat)
    : option (list (list A)) :=
  chunk_loop (S (length array)) 0 array chunkSize [].

(** [Array.from(new Set(members))]: a JavaScript [Set] keeps the first
    occurrence of each value, in insertion order. *)
Fixpoint set_insertions (seen members : list string) : list string :=
  match members with
  | [] => []
  | m :: rest =>
      if decide (m ∈ seen) then set_insertions seen rest
      else m :: set_insertions (m :: seen) rest
  end.

Definition array_from_set (members : list string) : list string :=
  set_insertions [] members.

(** ** The store and its collaborators *)

(** A Redis key holds either a plain value or a set; the set is kept as the
    reply [smembers] gives for it. *)
Inductive entry :=
| Value (v : string)
| Members (ms : list string).

Inductive error :=
| StoreUnavailable
| WrongType
| LoopDiverges.

Inductive result (A : Type) :=
| Ok (a : A)
| Err (e : error).
Arguments Ok {A} a.
Arguments Err {A} e.

Definition is_ok {A} (r : result A) : bool :=
  match r with Ok _ => true | Err _ => false end.

(** Everything the cache asks of a collaborator. *)
Inductive command :=
| GET_NAMESPACE
| SMEMBERS (key : string)
| DEL (keys : list string)
| PIPELINE (sadds : list (string * string))
| SUPER_SET (key value : string) (ttl : maybe_number)
| SUPER_INCREMENT (key : string) (value : Z)
| SUPER_DECREMENT (key : string) (value : Z)
| SUPER_FLUSH.

(** A command is sent ([Issue]) and later answered ([Settle], with whether
    the answer was a success). *)
Inductive event :=
| Issue (c : command)
| Settle (c : command) (ok : bool).

Record World := mkWorld {
  store : gmap string entry;
  faults : list bool;
  trace : list event;
}.

(** A promise-returning method. *)
Definition M (A : Type) : Type := World → result A * World.

Definition ret {A} (a : A) : M A := fun w => (Ok a, w).

(** [p.then(k)]: [k] runs only when [p] is fulfilled. *)
Definition bind {A B} (p : M A) (k : A → M B) : M B :=
  fun w =>
    match p w with
    | (Ok a, w') => k a w'
    | (Err e, w') => (Err e, w')
    end.

Notation "'let*' x ':=' p 'in' k" := (bind p (fun x => k))
  (at level 10, x name, p at level 100, k at level 200).

Definition log (e : event) (w : World) : World :=
  mkWorld (store w) (faults w) (trace w ++ [e]).

(** The next entry of the fault plan; an exhausted plan means no fault. *)
Definition next_fault (w : World) : bool * World :=
  match faults w with
  | [] => (false, w)
  | b :: fs => (b, mkWorld (store w) fs (trace w))
  end.

Definition issue (c : command) (w : World) : World := log (Issue c) w.

(** The answer to a command already sent.  A faulted command is rejected
    and leaves the keyspace as it was (a simplification: a store may have
    applied part of a batch it reports as failed); otherwise [sem] gives the
    reply and the new keyspace. *)
Definition settle {A} (c : command)
    (sem : gmap string entry → result A * gmap string entry) : M A :=
  fun w =>
    let '(bad, w1) := next_fault w in
    if bad then (Err StoreUnavailable, log (Settle c false) w1)
    else
      let '(r, s') := sem (store w1) in
      (r, log (Settle c (is_ok r)) (mkWorld s' (faults w1) (trace w1))).

Definition call {A} (c : command)
    (sem : gmap string entry → result A * gmap string entry) : M A :=
  fun w => settle c sem (issue c w).

(** *** Redis commands *)

(** Modelled from the spec: [smembers] of the store client (section 6); an
    absent key reads as an empty membership (section 4.3). *)
Definition smembers_sem (key : string) (s : gmap string entry)
    : result (list string) * gmap string entry :=
  match s !! key with
  | None => (Ok [], s)
  | Some (Members ms) => (Ok ms, s)
  | Some (Value _) => (Err WrongType, s)
  end.

(** Modelled from the spec: [del(keys...)] of the store client (section 6);
    deleting an absent key is a no-op success (section 4.3). *)
Definition del_keys (keys : list string) (s : gmap string entry)
    : gmap string entry :=
  foldr delete s keys.

Definition del_sem (keys : list string) (s : gmap string entry)
    : result unit * gmap string entry :=
  (Ok tt, del_keys keys s).

(** Modelled from the spec: [sadd] of the store client, a set-union add
    (sections 3 and 6); a key that holds a plain value is left alone (the
    command's own reply carries the error). *)
Definition sadd (key member : string) (s : gmap string entry)
    : gmap string entry :=
  match s !! key with
  | None => <[key := Members [member]]> s
  | Some (Members ms) =>
      if decide (member ∈ ms) then s else <[key := Members (ms ++ [member])]> s
  | Some (Value _) => s
  end.

(** Modelled from the spec: the batching mechanism of the store client
    (section 6), [pipeline.exec()]: the queued commands run in submission
    order in one round trip; a failing command does not reject the batch. *)
Definition pipeline_sem (sadds : list (string * string)) (s : gmap string entry)
    : result unit * gmap string entry :=
  (Ok tt, foldl (fun s' '(k, m) => sadd k m s') s sadds).

(** The effect of the parent class's primitives on stored values is not
    part of this core and is left out: their commands are recorded and
    answered.  What they write or flush is not modelled. *)
Definition opaque_sem (s : gmap string entry) : result unit * gmap string entry :=
  (Ok tt, s).

Definition store_smembers (key : string) : M (list string) :=
  call (SMEMBERS key) (smembers_sem key).

Definition store_del (keys : list string) : M unit :=
  call (DEL keys) (del_sem keys).

Definition pipeline_exec (sadds : list (string * string)) : M unit :=
  call (PIPELINE sadds) (pipeline_sem sadds).

(** ** The cache object *)

(** The fields of [this] the methods read: [this.tagPrefix],
    [this.store.options.keyPrefix] and the namespace that
    [this.tags.getNamespace()] resolves to. *)
Record Cache := mkCache {
  tagPrefix : string;
  keyPrefix : string;
  tags_namespace : string;
}.

Section RedisTaggedCache.

(** The digest imported from the [sha1] package. *)
Variable sha1 : string → string.
Variable this : Cache.

(** Modelled from the spec: the tag namespace resolver (section 6),
    [this.tags.getNamespace()], deterministic for the active tag set. *)
Definition getNamespace : M string :=
  call GET_NAMESPACE (fun s => (Ok (tags_namespace this), s)).

(** Modelled from the spec: the primitive set of the parent class
    [TaggedCache] (section 6), whose source is not part of this core: a
    command that is recorded and may be rejected. *)
Definition super_set (key value : string) (ttl : maybe_number) : M unit :=
  call (SUPER_SET key value ttl) opaque_sem.

(** Modelled from the spec: the primitive increment of the parent class. *)
Definition super_increment (key : string) (value : Z) : M unit :=
  call (SUPER_INCREMENT key value) opaque_sem.

(** Modelled from the spec: the primitive decrement of the parent class. *)
Definition super_decrement (key : string) (value : Z) : M unit :=
  call (SUPER_DECREMENT key value) opaque_sem.

(** Modelled from the spec: the primitive store-wide flush of the parent
    class (section 4.4). *)
Definition super_flush : M unit :=
  call SUPER_FLUSH opaque_sem.

(** *** Promise combinators *)

Definition first_rejection (r1 r2 : result unit) : result unit :=
  match r1 with
  | Ok _ => r2
  | Err e => Err e
  end.

(** [Promise.all]: every promise of the array has already been started and
    runs to its own end; the result is a rejection when one of them is
    rejected.  The promises are run in array order and the rejection
    reported is the first in that order; the code reports the one that comes
    first in time, so the statements below name the error of a join only as
    the error of one of the rejected promises. *)
Fixpoint Promise_all (promises : list (M unit)) : M unit :=
  fun w =>
    match promises with
    | [] => (Ok tt, w)
    | p :: rest =>
        let '(r1, w1) := p w in
        let '(r2, w2) := Promise_all rest w1 in
        (first_rejection r1 r2, w2)
    end.

Definition del_issue (chunk : list string) (w : World) : World :=
  issue (DEL chunk) w.

Definition del_settle (chunk : list string) : M unit :=
  settle (DEL chunk) (del_sem chunk).

(** Commands already sent are still answered after the map has rejected. *)
Fixpoint settle_rest (inFlight : list (list string)) (w : World) : World :=
  match inFlight with
  | [] => w
  | chunk :: rest => settle_rest rest (snd (del_settle chunk w))
  end.

(** The queue of [Promise.map]: the head of [pending] is the oldest call in
    flight, the first [limit] items of [pending] are in flight.  When a call
    is fulfilled the next queued item is started; when one is rejected the
    map rejects and starts nothing more. *)
Fixpoint drain (limit : nat) (pending : list (list string)) : M unit :=
  fun w =>
    match pending with
    | [] => (Ok tt, w)
    | chunk :: rest =>
        match del_settle chunk w with
        | (Ok _, w1) =>
            let w2 :=
              match rest !! (limit - 1) with
              | Some next => del_issue next w1
              | None => w1
              end in
            drain limit rest w2
        | (Err e, w1) => (Err e, settle_rest (take (limit - 1) rest) w1)
        end
    end.

(** [Promise.map(chunks, chunk => this.store.del(chunk), { concurrency })]:
    the mapper is called on the first [concurrency] items at once. *)
Definition Promise_map_del (chunks : list (list string)) (concurrency : nat)
    : M unit :=
  fun w => drain concurrency chunks (foldl (fun w' c => del_issue c w') w (take concurrency chunks)).

(** *** Methods *)

Definition referenceKey (segment suffix : string) : string :=
  tagPrefix this +:+ segment +:+ ":" +:+ suffix.

Definition fullKey (namespace key : string) : string :=
  keyPrefix this +:+ sha1 namespace +:+ ":" +:+ key.

Definition pushKeys (namespace key reference : string) : M unit :=
  let fullKey := fullKey namespace key in
  let pipeline :=
    map (fun segment => (referenceKey segment reference, fullKey))
        (split "|"%char namespace) in
  pipeline_exec pipeline.

Definition pushStandardKeys (namespace key : string) : M unit :=
  pushKeys namespace key REFERENCE_KEY_STANDARD.

Definition pushForeverKeys (namespace key : string) : M unit :=
  pushKeys namespace key REFERENCE_KEY_FOREVER.

(** [Array.from] gives an array, which is truthy even when empty: the
    [if (!members)] branch is never taken.  [LoopDiverges] stands for a
    [chunkArray] whose loop would not end; it cannot occur with chunk size
    1000 (lemma [chunkArray_spec]). *)
Definition deleteValues (referenceKey : string) : M unit :=
  let* members := store_smembers referenceKey in
  let members := array_from_set members in
  match chunkArray members 1000 with
  | Some chunks => Promise_map_del chunks 100
  | None => fun w => (Err LoopDiverges, w)
  end.

Definition deleteKeysByReference (reference : string) : M unit :=
  let* namespace := getNamespace in
  let referenceKeys :=
    map (fun segment => referenceKey segment reference) (split "|"%char namespace) in
  let promises := map deleteValues referenceKeys in
  let* _ := Promise_all promises in
  store_del referenceKeys.

Definition deleteForeverKeys : M unit :=
  deleteKeysByReference REFERENCE_KEY_FOREVER.

Definition deleteStandardKeys : M unit :=
  deleteKeysByReference REFERENCE_KEY_STANDARD.

Definition set (key value : string) (ttl : maybe_number) : M unit :=
  let reference :=
    if truthy ttl then REFERENCE_KEY_STANDARD else REFERENCE_KEY_FOREVER in
  let* namespace := getNamespace in
  Promise_all [pushKeys namespace key reference; super_set key value ttl].

(** [value = 1] when the argument is left out. *)
Definition increment (key : string) (value : option Z) : M unit :=
  let value := default 1%Z value in
  Promise_all
    [ (let* namespace := getNamespace in pushStandardKeys namespace key);
      super_increment key value ].

Definition decrement (key : string) (value : option Z) : M unit :=
  let value := default 1%Z value in
  Promise_all
    [ (let* namespace := getNamespace in pushStandardKeys namespace key);
      super_decrement key value ].

Definition flush : M unit :=
  let* _ := Promise_all [deleteForeverKeys; deleteStandardKeys] in
  super_flush.

End RedisTaggedCache.

(** ** Observations on strings, traces and stores *)

(** [Array.prototype.join]: the inverse reading of [split]. *)
Fixpoint join (sep : Ascii.ascii) (pieces : list string) : string :=
  match pieces with
  | [] => ""
  | [piece] => piece
  | piece :: rest => piece +:+ String sep (join sep rest)
  end.

Fixpoint occurs (c : Ascii.ascii) (s : string) : bool :=
  match s with
  | EmptyString => false
  | String c' rest => Ascii.eqb c' c || occurs c rest
  end.

(** The commands sent, in the order they were sent. *)
Fixpoint issued (evs : list event) : list command :=
  match evs with
  | [] => []
  | Issue c :: rest => c :: issued rest
  | Settle _ _ :: rest => issued rest
  end.

(** The commands answered, with their outcome, in the order of the answers. *)
Fixpoint settled (evs : list event) : list (command * bool) :=
  match evs with
  | [] => []
  | Issue _ :: rest => settled rest
  | Settle c ok :: rest => (c, ok) :: settled rest
  end.

(** The largest number of commands sent and not yet answered at any point
    of [evs], starting from [cur] commands in flight. *)
Fixpoint in_flight_peak (cur : nat) (evs : list event) : nat :=
  match evs with
  | [] => cur
  | Issue _ :: rest => Nat.max cur (in_flight_peak (S cur) rest)
  | Settle _ _ :: rest => Nat.max cur (in_flight_peak (Nat.pred cur) rest)
  end.

(** The events a run from [w] to [w'] added to the trace. *)
Definition new_events (w w' : World) : list event :=
  drop (length (trace w)) (trace w').

(** The results of the promises of an array, each run after the previous. *)
Fixpoint outcomes (promises : list (M unit)) (w : World) : list (result unit) :=
  match promises with
  | [] => []
  | p :: rest => let '(r, w1) := p w in r :: outcomes rest w1
  end.

(** The members [smembers] replies for [key]; none for an absent key or one
    that holds a plain value. *)
Definition members_of (s : gmap string entry) (key : string) : list string :=
  match s !! key with
  | Some (Members ms) => ms
  | _ => []
  end.

(** [s'] is [s] with some of the keys [ks] deleted. *)
Definition only_deletes (ks : list string) (s s' : gmap string entry) : Prop :=
  ∀ k, s' !! k = s !! k ∨ (k ∈ ks ∧ s' !! k = None).

(** The number of commands in flight after [evs]. *)
Fixpoint in_flight (cur : nat) (evs : list event) : nat :=
  match evs with
  | [] => cur
  | Issue _ :: rest => in_flight (S cur) rest
  | Settle _ _ :: rest => in_flight (Nat.pred cur) rest
  end.

(** The commands of one run of [deleteKeysByReference]. *)
Definition deletion_command (c : command) : bool :=
  match c with
  | GET_NAMESPACE | SMEMBERS _ | DEL _ => true
  | _ => false
  end.

Definition no_faults (w : World) : Prop :=
  Forall (fun b => b = false) (faults w).

(** ** Sample data *)

Definition sample_cache : Cache := mkCache "tag:" "app:" "users|premium".

(** A stand-in for the digest in the examples. *)
Definition sample_digest (s : string) : string := "#" +:+ s.

Definition fresh_world : World := mkWorld ∅ [] [].

(** The world after [set("u:42", "v", 60)] on an empty store. *)
Definition indexed_world : World :=
  let w := snd (set sample_digest sample_cache "u:42" "v" (Num 60%float) fresh_world) in
  mkWorld (store w) [] [].

(** A reference set whose reply lists a member twice; [k1] holds a value. *)
Definition repeated_world : World :=
  mkWorld {[ "tag:users:standard_ref" := Members ["k1"; "k2"; "k1"];
             "k1" := Value "v1" ]} [] [].


(** ** Strings and arrays *)

Lemma split_nonempty sep s : split sep s ≠ [].
Proof.
  destruct s as [|c rest]; simpl; [done|].
  destruct (Ascii.eqb c sep); [done|].
  by destruct (split sep rest).
Qed.

Lemma join_split sep s : join sep (split sep s) = s.
Proof.
  induction s as [|c rest IH]; simpl; [done|].
  destruct (Ascii.eqb_spec c sep) as [->|Hne].
  - pose proof (split_nonempty sep rest) as Hn.
    destruct (split sep rest) as [|seg segs]; [done|].
    simpl. simpl in IH. by rewrite IH.
  - pose proof (split_nonempty sep rest) as Hn.
    destruct (split sep rest) as [|seg segs]; [done|].
    simpl in *. destruct segs as [|seg' segs].
    + by rewrite IH.
    + simpl. by rewrite <- IH.
Qed.

Lemma split_no_separator sep s :
  Forall (fun seg => occurs sep seg = false) (split sep s).
Proof.
  induction s as [|c rest IH]; simpl.
  - by constructor.
  - destruct (Ascii.eqb c sep) eqn:Hc.
    + by constructor.
    + destruct (split sep rest) as [|seg segs].
      * constructor; [|done]. simpl. by rewrite Hc.
      * inversion IH; subst. constructor; [|done]. simpl. by rewrite Hc.
Qed.

Lemma set_insertions_elem seen members x :
  x ∈ set_insertions seen members ↔ x ∈ members ∧ x ∉ seen.
Proof.
  revert seen. induction members as [|m rest IH]; intros seen; simpl.
  - split; [intros H; by apply elem_of_nil in H|].
    intros [H _]. by apply elem_of_nil in H.
  - destruct (decide (m ∈ seen)) as [Hseen|Hfresh].
    + rewrite IH, elem_of_cons. split; [intros [? ?]; auto|].
      intros [[->|?] Hx]; [done|auto].
    + rewrite !elem_of_cons, IH, elem_of_cons. split.
      * intros [->|[? Hx]]; [auto|]. split; [auto|].
        intros Hin. apply Hx. by right.
      * intros [[->|Hin] Hx]; [by left|].
        destruct (decide (x = m)) as [->|Hne]; [by left|].
        right. split; [done|]. by intros [?|?].
Qed.

Lemma set_insertions_NoDup seen members : NoDup (set_insertions seen members).
Proof.
  revert seen. induction members as [|m rest IH]; intros seen; simpl.
  - constructor.
  - destruct (decide (m ∈ seen)); [apply IH|].
    constructor; [|apply IH].
    rewrite set_insertions_elem. intros [_ Hm]. apply Hm. by left.
Qed.

Lemma array_from_set_elem members x :
  x ∈ array_from_set members ↔ x ∈ members.
Proof.
  unfold array_from_set. rewrite set_insertions_elem. split; [by intros [? _]|].
  intros Hx. split; [done|]. intros H. by apply elem_of_nil in H.
Qed.

Lemma array_from_set_NoDup members : NoDup (array_from_set members).
Proof. apply set_insertions_NoDup. Qed.

Lemma elem_of_concat {A} (x : A) (ls : list (list A)) :
  x ∈ concat ls ↔ ∃ l, l ∈ ls ∧ x ∈ l.
Proof.
  induction ls as [|l ls IH]; simpl.
  - split; [intros H; by apply elem_of_nil in H|].
    intros (l & Hl & _). by apply elem_of_nil in Hl.
  - rewrite elem_of_app, IH. split.
    + intros [Hx|(l' & Hl' & Hx)].
      * exists l. split; [by left|done].
      * exists l'. split; [by right|done].
    + intros (l' & Hl' & Hx). apply elem_of_cons in Hl' as [->|Hl'].
      * by left.
      * right. by exists l'.
Qed.

Lemma elem_of_concat_take {A} (x : A) n (ls : list (list A)) :
  x ∈ concat (take n ls) → x ∈ concat ls.
Proof.
  rewrite !elem_of_concat. intros (l & Hl & Hx). exists l. split; [|done].
  apply elem_of_take in Hl as (i & Hi & _). by eapply list_elem_of_lookup_2.
Qed.

Lemma chunk_loop_spec {A} (array : list A) n fuel i out :
  0 < n → length array - i < fuel →
  ∃ rest, chunk_loop fuel i array n out = Some (out ++ rest)
    ∧ concat rest = drop i array
    ∧ Forall (fun c => 0 < length c ≤ n) rest
    ∧ length rest = Nat.div (length array - i + (n - 1)) n.
Proof.
  intros Hn. revert i out. induction fuel as [|fuel IH]; intros i out Hfuel; [lia|].
  simpl. destruct (Nat.ltb_spec i (length array)) as [Hlt|Hge].
  - destruct (IH (i + n) (out ++ [slice array i (i + n)])) as (rest & -> & Hcat & Hall & Hlen);
      [lia|].
    exists (slice array i (i + n) :: rest).
    assert (slice array i (i + n) = take n (drop i array)) as Hs
      by (unfold slice; f_equal; lia).
    rewrite Hs in *. rewrite <- app_assoc. split; [done|]. split; [|split].
    + simpl. rewrite Hcat, <- drop_drop. apply take_drop.
    + constructor; [|done]. rewrite length_take, length_drop. lia.
    + simpl. rewrite Hlen.
      destruct (decide (n ≤ length array - i)) as [Hle|Hgt].
      * replace (length array - i + (n - 1)) with
          (length array - (i + n) + (n - 1) + 1 * n) by lia.
        rewrite Nat.div_add by lia. lia.
      * replace (length array - (i + n) + (n - 1)) with (n - 1) by lia.
        rewrite Nat.div_small by lia.
        replace (length array - i + (n - 1)) with
          ((length array - i - 1) + 1 * n) by lia.
        rewrite Nat.div_add by lia. rewrite Nat.div_small by lia. done.
  - exists []. rewrite app_nil_r. split; [done|]. split; [|split].
    + simpl. symmetry. apply drop_ge. lia.
    + constructor.
    + simpl. replace (length array - i + (n - 1)) with (n - 1) by lia.
      rewrite Nat.div_small by lia. done.
Qed.

(** [chunkArray] returns for every positive chunk size: the chunks in
    order, none empty, none longer than the chunk size. *)
Lemma chunkArray_spec {A} (array : list A) n :
  0 < n →
  ∃ chunks, chunkArray array n = Some chunks
    ∧ concat chunks = array
    ∧ Forall (fun c => 0 < length c ≤ n) chunks
    ∧ length chunks = Nat.div (length array + (n - 1)) n.
Proof.
  intros Hn. unfold chunkArray.
  destruct (chunk_loop_spec array n (S (length array)) 0 [] Hn) as
    (rest & Heq & Hcat & Hall & Hlen); [lia|].
  exists rest. rewrite Nat.sub_0_r in Hlen. by rewrite drop_0 in Hcat.
Qed.

(** ** Traces *)

Lemma issued_app evs1 evs2 : issued (evs1 ++ evs2) = issued evs1 ++ issued evs2.
Proof.
  induction evs1 as [|[c|c ok] evs1 IH]; simpl; [done| |done].
  by rewrite IH.
Qed.

Lemma settled_app evs1 evs2 :
  settled (evs1 ++ evs2) = settled evs1 ++ settled evs2.
Proof.
  induction evs1 as [|[c|c ok] evs1 IH]; simpl; [done|done|].
  by rewrite IH.
Qed.

Lemma in_flight_app cur evs1 evs2 :
  in_flight cur (evs1 ++ evs2) = in_flight (in_flight cur evs1) evs2.
Proof.
  revert cur. induction evs1 as [|[c|c ok] evs1 IH]; intros cur; simpl; auto.
Qed.

Lemma in_flight_peak_app cur evs1 evs2 :
  in_flight_peak cur (evs1 ++ evs2) =
  Nat.max (in_flight_peak cur evs1) (in_flight_peak (in_flight cur evs1) evs2).
Proof.
  revert cur. induction evs1 as [|[c|c ok] evs1 IH]; intros cur; simpl.
  - assert (cur ≤ in_flight_peak cur evs2) by (destruct evs2 as [|[?|? ?] ?]; simpl; lia).
    lia.
  - rewrite IH. lia.
  - rewrite IH. lia.
Qed.

Lemma new_events_app w w' evs :
  trace w' = trace w ++ evs → new_events w w' = evs.
Proof. unfold new_events. intros ->. by rewrite drop_app_length. Qed.

(** ** The keyspace *)

Lemma lookup_del_keys keys s k :
  del_keys keys s !! k = if decide (k ∈ keys) then None else s !! k.
Proof.
  unfold del_keys. induction keys as [|k' keys IH]; simpl.
  - destruct (decide (k ∈ [])) as [Hin|_]; [|done].
    by apply elem_of_nil in Hin.
  - destruct (decide (k' = k)) as [->|Hne].
    + rewrite lookup_delete_eq.
      destruct (decide (k ∈ k :: keys)) as [_|Hnin]; [done|].
      exfalso. apply Hnin. by left.
    + rewrite lookup_delete_ne by done. rewrite IH.
      destruct (decide (k ∈ keys)) as [Hin|Hnin];
        destruct (decide (k ∈ k' :: keys)) as [Hin'|Hnin']; try done.
      * exfalso. apply Hnin'. by right.
      * apply elem_of_cons in Hin' as [->|?]; done.
Qed.

Lemma only_deletes_refl ks s : only_deletes ks s s.
Proof. intros k. by left. Qed.

Lemma only_deletes_trans ks1 ks2 s1 s2 s3 :
  only_deletes ks1 s1 s2 → only_deletes ks2 s2 s3 →
  only_deletes (ks1 ++ ks2) s1 s3.
Proof.
  intros H12 H23 k. destruct (H23 k) as [Heq|[Hin Hnone]].
  - rewrite Heq. destruct (H12 k) as [?|[Hin ?]]; [by left|].
    right. split; [|done]. apply elem_of_app. by left.
  - right. split; [|done]. apply elem_of_app. by right.
Qed.

Lemma only_deletes_mono ks ks' s s' :
  (∀ k, k ∈ ks → k ∈ ks') → only_deletes ks s s' → only_deletes ks' s s'.
Proof. intros Hsub H k. destruct (H k) as [?|[? ?]]; [by left|right; auto]. Qed.

Lemma only_deletes_del_keys ks s : only_deletes ks s (del_keys ks s).
Proof.
  intros k. rewrite lookup_del_keys. case_decide; [by right|by left].
Qed.

Lemma only_deletes_absent ks s s' k :
  only_deletes ks s s' → s !! k = None → s' !! k = None.
Proof. intros H Hk. destruct (H k) as [->|[_ ?]]; done. Qed.

Lemma only_deletes_members ks s s' key x :
  only_deletes ks s s' → x ∈ members_of s' key → x ∈ members_of s key.
Proof.
  intros H. unfold members_of. destruct (H key) as [->|[_ ->]]; [done|].
  intros Hx. by apply elem_of_nil in Hx.
Qed.

(** ** Commands *)

Lemma settle_spec {A} c (sem : gmap string entry → result A * gmap string entry)
    w r w' :
  settle c sem w = (r, w') →
  trace w' = trace w ++ [Settle c (is_ok r)]
  ∧ faults w' = tail (faults w)
  ∧ ((head (faults w) = Some true ∧ r = Err StoreUnavailable ∧ store w' = store w)
     ∨ (head (faults w) ≠ Some true ∧ sem (store w) = (r, store w'))).
Proof.
  unfold settle, next_fault. destruct w as [s fs tr]; simpl.
  destruct fs as [|[|] fs]; simpl.
  - destruct (sem s) as [r0 s0] eqn:Hsem. intros [= <- <-]. simpl.
    split; [done|]. split; [done|]. right. by split.
  - intros [= <- <-]. simpl. split; [done|]. split; [done|]. by left.
  - destruct (sem s) as [r0 s0] eqn:Hsem. intros [= <- <-]. simpl.
    split; [done|]. split; [done|]. right. by split.
Qed.

Lemma call_spec {A} c (sem : gmap string entry → result A * gmap string entry)
    w r w' :
  call c sem w = (r, w') →
  trace w' = trace w ++ [Issue c; Settle c (is_ok r)]
  ∧ faults w' = tail (faults w)
  ∧ ((head (faults w) = Some true ∧ r = Err StoreUnavailable ∧ store w' = store w)
     ∨ (head (faults w) ≠ Some true ∧ sem (store w) = (r, store w'))).
Proof.
  unfold call. intros H. apply settle_spec in H as (Htr & Hf & Hs).
  simpl in *. rewrite Htr, <- app_assoc. done.
Qed.

Lemma no_faults_head w : no_faults w → head (faults w) ≠ Some true.
Proof.
  unfold no_faults. destruct (faults w) as [|b fs]; [done|].
  intros H. inversion H; subst. done.
Qed.

Lemma no_faults_tail w w' :
  no_faults w → faults w' = tail (faults w) → no_faults w'.
Proof.
  unfold no_faults. intros H ->. destruct (faults w); [done|].
  by inversion H.
Qed.

Lemma del_settle_spec chunk w r w' :
  del_settle chunk w = (r, w') →
  trace w' = trace w ++ [Settle (DEL chunk) (is_ok r)]
  ∧ only_deletes chunk (store w) (store w')
  ∧ (r = Ok tt → store w' = del_keys chunk (store w)).
Proof.
  unfold del_settle. intros H.
  apply settle_spec in H as (Htr & _ & [(_ & -> & Hs)|(_ & Hs)]).
  - split; [done|]. rewrite Hs. split; [apply only_deletes_refl|done].
  - unfold del_sem in Hs. injection Hs as <- <-. split; [done|].
    split; [apply only_deletes_del_keys|done].
Qed.

(** ** The bounded-concurrency map *)

Lemma in_flight_peak_settles cur evs :
  issued evs = [] → in_flight_peak cur evs = cur.
Proof.
  revert cur. induction evs as [|[c|c ok] evs IH]; intros cur Hi; simpl in *;
    [done|done|].
  rewrite IH by done. lia.
Qed.

Lemma settle_rest_spec inFlight w :
  ∃ evs, trace (settle_rest inFlight w) = trace w ++ evs
    ∧ issued evs = []
    ∧ only_deletes (concat inFlight) (store w) (store (settle_rest inFlight w)).
Proof.
  revert w. induction inFlight as [|chunk rest IH]; intros w; simpl.
  - exists []. rewrite app_nil_r. split; [done|]. split; [done|].
    apply only_deletes_refl.
  - destruct (del_settle chunk w) as [r w1] eqn:Hs. simpl.
    apply del_settle_spec in Hs as (Htr & Hdel & _).
    destruct (IH w1) as (evs & Htr' & Hi & Hdel').
    exists (Settle (DEL chunk) (is_ok r) :: evs).
    rewrite Htr', Htr, <- app_assoc. split; [done|]. split; [done|].
    by eapply only_deletes_trans.
Qed.

Lemma del_issue_trace chunk w :
  trace (del_issue chunk w) = trace w ++ [Issue (DEL chunk)]
  ∧ store (del_issue chunk w) = store w
  ∧ faults (del_issue chunk w) = faults w.
Proof. done. Qed.

Lemma drain_trace limit pending w r w' :
  1 ≤ limit →
  drain limit pending w = (r, w') →
  ∃ evs, trace w' = trace w ++ evs
    ∧ issued evs `prefix_of` map DEL (drop limit pending)
    ∧ in_flight_peak (Nat.min limit (length pending)) evs ≤ limit
    ∧ (r = Ok tt →
       issued evs = map DEL (drop limit pending)
       ∧ settled evs = map (fun c => (DEL c, true)) pending).
Proof.
  intros Hlimit. revert w. induction pending as [|chunk rest IH]; intros w; simpl.
  - intros [= <- <-]. exists []. rewrite app_nil_r, drop_nil. simpl.
    repeat split; try done. lia.
  - destruct (del_settle chunk w) as [[[]|e] w1] eqn:Hs;
      apply del_settle_spec in Hs as (Htr & _ & _); simpl in Htr.
    + destruct (rest !! (limit - 1)) as [next|] eqn:Hnext.
      * intros Hd. apply IH in Hd as (evs & Htr' & Hpre & Hpeak & Hok).
        pose proof (lookup_lt_Some _ _ _ Hnext) as Hlt.
        assert (drop limit (chunk :: rest) = next :: drop limit rest) as Hdrop.
        { destruct limit as [|l]; [lia|]. simpl in *.
          rewrite Nat.sub_0_r in Hnext. by apply drop_S. }
        exists (Settle (DEL chunk) true :: Issue (DEL next) :: evs).
        rewrite Htr'. simpl. rewrite Htr, <- !app_assoc. split; [done|].
        rewrite Hdrop. simpl. split; [by apply prefix_cons|]. split.
        -- replace (Nat.min limit (S (length rest))) with limit by lia.
           replace (S (Nat.pred limit)) with (Nat.min limit (length rest)) by lia.
           lia.
        -- intros Hr. destruct (Hok Hr) as [-> ->]. done.
      * intros Hd. apply IH in Hd as (evs & Htr' & Hpre & Hpeak & Hok).
        pose proof (lookup_ge_None_1 _ _ Hnext) as Hge.
        assert (drop limit (chunk :: rest) = []) as Hdrop
          by (apply drop_ge; simpl; lia).
        assert (drop limit rest = []) as Hdrop' by (apply drop_ge; lia).
        exists (Settle (DEL chunk) true :: evs).
        rewrite Htr', Htr, <- app_assoc. split; [done|].
        rewrite Hdrop. rewrite Hdrop' in *. simpl. split; [done|]. split.
        -- replace (Nat.pred (Nat.min limit (S (length rest))))
             with (Nat.min limit (length rest)) by lia.
           lia.
        -- intros Hr. destruct (Hok Hr) as [-> ->]. done.
    + intros [= <- <-].
      destruct (settle_rest_spec (take (limit - 1) rest) w1) as (evs & Htr' & Hi & _).
      exists (Settle (DEL chunk) false :: evs).
      rewrite Htr', Htr, <- app_assoc. split; [done|]. simpl. rewrite Hi.
      split; [apply prefix_nil|]. split; [|done].
      rewrite in_flight_peak_settles by done. lia.
Qed.

Lemma drain_store limit pending w r w' :
  drain limit pending w = (r, w') →
  only_deletes (concat pending) (store w) (store w')
  ∧ (r = Ok tt → ∀ k, k ∈ concat pending → store w' !! k = None).
Proof.
  revert w. induction pending as [|chunk rest IH]; intros w; simpl.
  - intros [= <- <-]. split; [apply only_deletes_refl|].
    intros _ k Hk. by apply elem_of_nil in Hk.
  - destruct (del_settle chunk w) as [[[]|e] w1] eqn:Hs;
      apply del_settle_spec in Hs as (_ & Hdel & Hok).
    + intros Hd.
      assert (∃ w2, store w2 = store w1 ∧ drain limit rest w2 = (r, w'))
        as (w2 & Hw2 & Hd').
      { destruct (rest !! (limit - 1)) as [next|].
        - exists (del_issue next w1). by split.
        - exists w1. by split. }
      apply IH in Hd' as [Hdel' Hok']. rewrite Hw2 in Hdel'.
      split; [by eapply only_deletes_trans|].
      intros Hr k Hk. apply elem_of_app in Hk as [Hk|Hk]; [|by apply Hok'].
      eapply only_deletes_absent; [exact Hdel'|].
      rewrite Hok by done. rewrite lookup_del_keys.
      by destruct (decide (k ∈ chunk)).
    + intros [= <- <-]. split; [|done].
      destruct (settle_rest_spec (take (limit - 1) rest) w1) as (_ & _ & _ & Hdel').
      eapply only_deletes_trans; [exact Hdel|].
      eapply only_deletes_mono; [|exact Hdel'].
      intros k Hk. by eapply elem_of_concat_take.
Qed.

Lemma issue_chunks_spec chunks w :
  let w' := foldl (fun w0 c => del_issue c w0) w chunks in
  trace w' = trace w ++ map (fun c => Issue (DEL c)) chunks
  ∧ store w' = store w ∧ faults w' = faults w.
Proof.
  revert w. induction chunks as [|c chunks IH]; intros w; simpl.
  - by rewrite app_nil_r.
  - destruct (IH (del_issue c w)) as (-> & -> & ->). simpl.
    by rewrite <- app_assoc.
Qed.

Lemma issues_observed chunks cur :
  let evs := map (fun c => Issue (DEL c)) chunks in
  issued evs = map DEL chunks ∧ settled evs = []
  ∧ in_flight cur evs = cur + length chunks
  ∧ in_flight_peak cur evs = cur + length chunks.
Proof.
  revert cur. induction chunks as [|c chunks IH]; intros cur; simpl.
  - repeat split; lia.
  - destruct (IH (S cur)) as (-> & -> & -> & ->). repeat split; lia.
Qed.

Lemma Promise_map_del_spec chunks limit w r w' :
  1 ≤ limit →
  Promise_map_del chunks limit w = (r, w') →
  ∃ evs, trace w' = trace w ++ evs
    ∧ issued evs `prefix_of` map DEL chunks
    ∧ in_flight_peak 0 evs ≤ limit
    ∧ only_deletes (concat chunks) (store w) (store w')
    ∧ (r = Ok tt →
       issued evs = map DEL chunks
       ∧ settled evs = map (fun c => (DEL c, true)) chunks
       ∧ ∀ k, k ∈ concat chunks → store w' !! k = None).
Proof.
  intros Hlimit. unfold Promise_map_del. intros Hd.
  destruct (issue_chunks_spec (take limit chunks) w) as (Htr0 & Hs0 & _).
  destruct (issues_observed (take limit chunks) 0) as (Hi & Hse & Hfl & Hpk).
  simpl in *.
  destruct (drain_store _ _ _ _ _ Hd) as [Hdel Hgone].
  apply drain_trace in Hd as (evs & Htr & Hpre & Hpeak & Hok); [|done].
  rewrite Hs0 in Hdel.
  exists (map (fun c => Issue (DEL c)) (take limit chunks) ++ evs).
  rewrite Htr, Htr0, <- app_assoc. split; [done|].
  rewrite issued_app, settled_app, in_flight_peak_app, Hi, Hse, Hfl, Hpk.
  rewrite length_take. simpl.
  assert (map DEL chunks = map DEL (take limit chunks) ++ map DEL (drop limit chunks))
    as Hsplit by (by rewrite <- map_app, take_drop).
  split; [rewrite Hsplit; by apply prefix_app|].
  split; [lia|]. split; [done|].
  intros Hr. destruct (Hok Hr) as [-> ->]. rewrite <- Hsplit. auto.
Qed.

Lemma del_settle_no_faults chunk w :
  no_faults w →
  ∃ w', del_settle chunk w = (Ok tt, w') ∧ no_faults w'
    ∧ store w' = del_keys chunk (store w).
Proof.
  intros Hnf. destruct (del_settle chunk w) as [r w'] eqn:Hs.
  pose proof Hs as Hs'. apply del_settle_spec in Hs' as (_ & _ & Hok).
  unfold del_settle in Hs.
  apply settle_spec in Hs as (_ & Hf & [(Hbad & _)|(_ & Hsem)]).
  - by destruct (no_faults_head w Hnf).
  - injection Hsem as <- _. exists w'. split; [done|].
    split; [by eapply no_faults_tail|by apply Hok].
Qed.

Lemma drain_no_faults limit pending w :
  no_faults w →
  ∃ w', drain limit pending w = (Ok tt, w') ∧ no_faults w'.
Proof.
  revert w. induction pending as [|chunk rest IH]; intros w Hnf; simpl.
  - by exists w.
  - destruct (del_settle_no_faults chunk w Hnf) as (w1 & -> & Hnf1 & _).
    apply IH. by destruct (rest !! (limit - 1)).
Qed.

Lemma Promise_map_del_no_faults chunks limit w :
  no_faults w →
  ∃ w', Promise_map_del chunks limit w = (Ok tt, w') ∧ no_faults w'.
Proof.
  intros Hnf. unfold Promise_map_del. apply drain_no_faults.
  destruct (issue_chunks_spec (take limit chunks) w) as (_ & _ & Hf).
  unfold no_faults. simpl in Hf. by rewrite Hf.
Qed.

Lemma drain_rejected limit pending w e w' :
  drain limit pending w = (Err e, w') →
  ∃ evs, trace w' = trace w ++ evs
    ∧ ¬ Forall (fun answer => snd answer = true) (settled evs).
Proof.
  revert w. induction pending as [|chunk rest IH]; intros w; simpl; [done|].
  destruct (del_settle chunk w) as [[[]|e1] w1] eqn:Hs;
    apply del_settle_spec in Hs as (Htr & _ & _); simpl in Htr.
  - intros Hd.
    assert (∃ issues, trace (match rest !! (limit - 1) with
                             | Some next => del_issue next w1
                             | None => w1
                             end) = trace w1 ++ issues
                      ∧ settled issues = []) as (issues & Htr2 & Hnone).
    { destruct (rest !! (limit - 1)) as [next|].
      - by exists [Issue (DEL next)].
      - exists []. by rewrite app_nil_r. }
    apply IH in Hd as (evs & Htr' & Hfalse).
    exists (Settle (DEL chunk) true :: issues ++ evs).
    rewrite Htr', Htr2, Htr, <- !app_assoc. split; [done|].
    simpl. rewrite settled_app, Hnone. simpl.
    intros Hall. apply Hfalse. by inversion Hall.
  - intros [= <- <-].
    destruct (settle_rest_spec (take (limit - 1) rest) w1) as (evs & Htr' & _).
    exists (Settle (DEL chunk) false :: evs).
    rewrite Htr', Htr, <- app_assoc. split; [done|]. simpl.
    intros Hall. by inversion Hall.
Qed.

(** [Promise.map] is fulfilled exactly when every call it made was answered
    with success, and it starts the first window of calls at once. *)
Lemma Promise_map_del_answers chunks limit w r w' :
  1 ≤ limit →
  Promise_map_del chunks limit w = (r, w') →
  (r = Ok tt ↔
   Forall (fun answer => snd answer = true) (settled (new_events w w')))
  ∧ Nat.min limit (length chunks) ≤ length (issued (new_events w w')).
Proof.
  intros Hlimit. unfold Promise_map_del. intros Hd.
  destruct (issue_chunks_spec (take limit chunks) w) as (Htr0 & _ & _).
  destruct (issues_observed (take limit chunks) 0) as (Hi & Hse & _ & _).
  simpl in *.
  assert (∃ evs, trace w' = trace w ++
                   map (fun c => Issue (DEL c)) (take limit chunks) ++ evs
                 ∧ (r = Ok tt ↔
                    Forall (fun answer => snd answer = true) (settled evs)))
    as (evs & Htr & Hiff).
  { destruct r as [[]|e].
    - apply drain_trace in Hd as (evs & Htr & _ & _ & Hok); [|done].
      exists evs. rewrite Htr, Htr0, <- app_assoc. split; [done|].
      split; [|done]. intros _. destruct (Hok eq_refl) as [_ ->].
      apply Forall_forall. by intros answer (c & -> & _)%list_elem_of_fmap.
    - apply drain_rejected in Hd as (evs & Htr & Hfalse).
      exists evs. rewrite Htr, Htr0, <- app_assoc. split; [done|].
      split; [done|]. intros Hall. by destruct (Hfalse Hall). }
  rewrite (new_events_app _ _ _ Htr).
  rewrite settled_app, issued_app, Hse, Hi, length_app, length_map, length_take.
  simpl. split; [done|]. lia.
Qed.

(** ** The batch deleter *)

Lemma smembers_reply key w r w' :
  store_smembers key w = (r, w') →
  trace w' = trace w ++ [Issue (SMEMBERS key); Settle (SMEMBERS key) (is_ok r)]
  ∧ store w' = store w
  ∧ faults w' = tail (faults w)
  ∧ (∀ ms, r = Ok ms → ms = members_of (store w) key)
  ∧ (head (faults w) ≠ Some true →
     store w !! key = None ∨ (∃ ms, store w !! key = Some (Members ms)) →
     r = Ok (members_of (store w) key)).
Proof.
  unfold store_smembers. intros H.
  apply call_spec in H as (Htr & Hf & [(Hbad & -> & Hs)|(Hgood & Hs)]).
  - repeat split; try done.
  - unfold smembers_sem, members_of in *.
    destruct (store w !! key) as [[v|ms]|] eqn:Hk; injection Hs as <- <-;
      repeat split; try done.
    + intros _ [?|[? ?]]; done.
    + by intros ? [= <-].
    + by intros ? [= <-].
Qed.

Lemma deleteValues_unfold referenceKey w :
  deleteValues referenceKey w =
  match store_smembers referenceKey w with
  | (Ok members, w1) =>
      match chunkArray (array_from_set members) 1000 with
      | Some chunks => Promise_map_del chunks 100 w1
      | None => (Err LoopDiverges, w1)
      end
  | (Err e, w1) => (Err e, w1)
  end.
Proof.
  unfold deleteValues, bind.
  destruct (store_smembers referenceKey w) as [[members|e] w1]; [|done].
  by destruct (chunkArray (array_from_set members) 1000).
Qed.

Lemma deleteValues_run referenceKey w r w' :
  deleteValues referenceKey w = (r, w') →
  ∃ evs, trace w' = trace w ++ evs
    ∧ Forall (fun c => deletion_command c = true) (issued evs)
    ∧ only_deletes (members_of (store w) referenceKey) (store w) (store w')
    ∧ (r = Ok tt →
       ∀ k, k ∈ members_of (store w) referenceKey → store w' !! k = None).
Proof.
  rewrite deleteValues_unfold.
  destruct (store_smembers referenceKey w) as [[members|e] w1] eqn:Hm;
    apply smembers_reply in Hm as (Htr & Hs & _ & Hms & _).
  - specialize (Hms members eq_refl). subst members.
    destruct (chunkArray_spec (array_from_set (members_of (store w) referenceKey)) 1000)
      as (chunks & -> & Hcat & _ & _); [lia|].
    intros Hp. apply Promise_map_del_spec in Hp
      as (evs & Htr' & Hpre & _ & Hdel & Hok); [|lia].
    rewrite Hcat, Hs in Hdel.
    exists ([Issue (SMEMBERS referenceKey); Settle (SMEMBERS referenceKey) true] ++ evs).
    rewrite Htr', Htr, <- app_assoc. split; [done|]. split; [|split].
    + simpl. constructor; [done|]. destruct Hpre as [tl Hpre].
      assert (Forall (fun c => deletion_command c = true) (map DEL chunks)) as Hall
        by (apply Forall_forall; intros c (x & -> & _)%list_elem_of_fmap; done).
      rewrite Hpre in Hall. by apply Forall_app in Hall as [? _].
    + eapply only_deletes_mono; [|exact Hdel].
      intros k. by rewrite array_from_set_elem.
    + intros Hr k Hk. destruct (Hok Hr) as (_ & _ & Hgone).
      apply Hgone. rewrite Hcat. by apply array_from_set_elem.
  - intros [= <- <-].
    exists [Issue (SMEMBERS referenceKey); Settle (SMEMBERS referenceKey) false].
    split; [done|]. split; [by repeat constructor|].
    rewrite Hs. split; [apply only_deletes_refl|done].
Qed.

(** ** Joining promises *)

Lemma Promise_all_result promises w :
  fst (Promise_all promises w) = foldr first_rejection (Ok tt) (outcomes promises w).
Proof.
  revert w. induction promises as [|p rest IH]; intros w; simpl; [done|].
  destruct (p w) as [r1 w1]. specialize (IH w1).
  destruct (Promise_all rest w1) as [r2 w2]. simpl in *. by rewrite IH.
Qed.

Lemma first_rejection_fulfilled results :
  foldr first_rejection (Ok tt) results = Ok tt ↔
  Forall (fun r => r = Ok tt) results.
Proof.
  induction results as [|r results IH]; simpl.
  - split; [constructor|done].
  - destruct r as [[]|e]; simpl.
    + rewrite IH. split; [by constructor|by inversion 1].
    + split; [done|]. by inversion 1.
Qed.

Lemma first_rejection_rejected results e :
  foldr first_rejection (Ok tt) results = Err e → Err e ∈ results.
Proof.
  induction results as [|r results IH]; simpl; [done|].
  destruct r as [[]|e']; simpl.
  - intros H. right. by apply IH.
  - intros [= ->]. by left.
Qed.

Lemma Promise_all_deleteValues referenceKeys w r w' :
  Promise_all (map deleteValues referenceKeys) w = (r, w') →
  ∃ evs, trace w' = trace w ++ evs
    ∧ Forall (fun c => deletion_command c = true) (issued evs)
    ∧ only_deletes (concat (map (members_of (store w)) referenceKeys))
        (store w) (store w')
    ∧ (r = Ok tt → ∀ k, k ∈ members_of (store w) (default "" (head referenceKeys)) →
       referenceKeys ≠ [] → store w' !! k = None).
Proof.
  revert w r w'. induction referenceKeys as [|rk rest IH]; intros w r w'; simpl.
  - intros [= <- <-]. exists []. rewrite app_nil_r.
    split; [done|]. split; [constructor|]. split; [apply only_deletes_refl|done].
  - destruct (deleteValues rk w) as [r1 w1] eqn:H1.
    destruct (Promise_all (map deleteValues rest) w1) as [r2 w2] eqn:H2.
    intros [= <- <-].
    apply deleteValues_run in H1 as (evs1 & Htr1 & Hc1 & Hdel1 & Hgone1).
    apply IH in H2 as (evs2 & Htr2 & Hc2 & Hdel2 & _).
    exists (evs1 ++ evs2). rewrite Htr2, Htr1, <- app_assoc. split; [done|].
    rewrite issued_app. split; [by apply Forall_app|].
    assert (only_deletes (concat (map (members_of (store w)) rest)) (store w1) (store w2))
      as Hdel2'.
    { eapply only_deletes_mono; [|exact Hdel2].
      intros k (l & Hl & Hk)%elem_of_concat. apply elem_of_concat.
      apply list_elem_of_fmap in Hl as (rk' & -> & Hrk').
      exists (members_of (store w) rk'). split.
      - apply list_elem_of_fmap. by exists rk'.
      - by eapply only_deletes_members. }
    split; [by eapply only_deletes_trans|].
    intros Hr k Hk _. destruct r1 as [[]|e]; [|done].
    eapply only_deletes_absent; [exact Hdel2'|]. by apply Hgone1.
Qed.

(** ** The invalidation coordinator *)

Lemma getNamespace_spec this w r w' :
  getNamespace this w = (r, w') →
  trace w' = trace w ++ [Issue GET_NAMESPACE; Settle GET_NAMESPACE (is_ok r)]
  ∧ store w' = store w
  ∧ faults w' = tail (faults w)
  ∧ (∀ ns, r = Ok ns → ns = tags_namespace this)
  ∧ (head (faults w) ≠ Some true → r = Ok (tags_namespace this))
  ∧ (head (faults w) = Some true → r = Err StoreUnavailable).
Proof.
  unfold getNamespace. intros H.
  apply call_spec in H as (Htr & Hf & [(Hbad & -> & Hs)|(Hgood & Hs)]).
  - repeat split; try done.
  - injection Hs as <- <-. repeat split; try done. by intros ? [= <-].
Qed.

Lemma store_del_spec keys w r w' :
  store_del keys w = (r, w') →
  trace w' = trace w ++ [Issue (DEL keys); Settle (DEL keys) (is_ok r)]
  ∧ faults w' = tail (faults w)
  ∧ only_deletes keys (store w) (store w')
  ∧ (r = Ok tt → store w' = del_keys keys (store w))
  ∧ (head (faults w) ≠ Some true → r = Ok tt).
Proof.
  unfold store_del. intros H.
  apply call_spec in H as (Htr & Hf & [(Hbad & -> & Hs)|(Hgood & Hs)]).
  - rewrite Hs. repeat split; try done. apply only_deletes_refl.
  - unfold del_sem in Hs. injection Hs as <- <-. repeat split; try done.
    apply only_deletes_del_keys.
Qed.

Lemma deleteKeysByReference_unfold this reference w :
  deleteKeysByReference this reference w =
  match getNamespace this w with
  | (Ok namespace, w1) =>
      let referenceKeys :=
        map (fun segment => referenceKey this segment reference)
            (split "|" namespace) in
      match Promise_all (map deleteValues referenceKeys) w1 with
      | (Ok _, w2) => store_del referenceKeys w2
      | (Err e, w2) => (Err e, w2)
      end
  | (Err e, w1) => (Err e, w1)
  end.
Proof.
  unfold deleteKeysByReference, bind.
  destruct (getNamespace this w) as [[namespace|e] w1]; [|done]. done.
Qed.

Lemma deleteKeysByReference_run this reference w r w' :
  deleteKeysByReference this reference w = (r, w') →
  ∃ evs, trace w' = trace w ++ evs
    ∧ Forall (fun c => deletion_command c = true) (issued evs).
Proof.
  rewrite deleteKeysByReference_unfold.
  destruct (getNamespace this w) as [[namespace|e] w1] eqn:Hns;
    apply getNamespace_spec in Hns as (Htr & _).
  - simpl.
    destruct (Promise_all _ w1) as [[[]|e] w2] eqn:Hall;
      apply Promise_all_deleteValues in Hall as (evs & Htr2 & Hc & _).
    + intros Hd. apply store_del_spec in Hd as (Htr3 & _).
      eexists. rewrite Htr3, Htr2, Htr, <- !app_assoc. split; [done|].
      simpl. constructor; [done|]. rewrite issued_app. apply Forall_app.
      split; [done|]. simpl. by constructor.
    + intros [= <- <-]. eexists. rewrite Htr2, Htr, <- !app_assoc.
      split; [done|]. simpl. by constructor.
  - intros [= <- <-]. eexists. split; [exact Htr|]. simpl. by constructor.
Qed.

Lemma super_flush_spec w r w' :
  super_flush w = (r, w') →
  trace w' = trace w ++ [Issue SUPER_FLUSH; Settle SUPER_FLUSH (is_ok r)]
  ∧ store w' = store w.
Proof.
  unfold super_flush. intros H.
  apply call_spec in H as (Htr & _ & [(_ & _ & Hs)|(_ & Hs)]); [done|].
  injection Hs as <- <-. done.
Qed.

Lemma flush_unfold this w :
  flush this w =
  let '(rF, w1) := deleteForeverKeys this w in
  let '(rS, w2) := deleteStandardKeys this w1 in
  match first_rejection rF rS with
  | Ok _ => super_flush w2
  | Err e => (Err e, w2)
  end.
Proof.
  unfold flush, bind. simpl.
  destruct (deleteForeverKeys this w) as [rF w1].
  destruct (deleteStandardKeys this w1) as [rS w2].
  by destruct rF as [[]|eF], rS as [[]|eS].
Qed.

(** C1 (flush completeness).  When the fully-qualified cache key of a
    logical key is a member of every per-segment reference set of the
    namespace for an expiration class and [deleteKeysByReference] for that
    class's token is fulfilled, then afterwards the fully-qualified key is
    absent from the store and so is every reference key of the class. *)
Theorem flush_completeness sha1 this C key w w' :
  let namespace := tags_namespace this in
  let K := fullKey sha1 this namespace key in
  (∀ segment, segment ∈ split "|" namespace →
     K ∈ members_of (store w) (referenceKey this segment (token C))) →
  deleteKeysByReference this (token C) w = (Ok tt, w') →
  store w' !! K = None
  ∧ ∀ segment, segment ∈ split "|" namespace →
      store w' !! referenceKey this segment (token C) = None.
Proof.
  intros namespace K Hindexed. rewrite deleteKeysByReference_unfold.
  destruct (getNamespace this w) as [[ns|e] w1] eqn:Hns; [|done].
  apply getNamespace_spec in Hns as (_ & Hs1 & _ & Hname & _ & _).
  rewrite (Hname ns eq_refl). fold namespace. simpl.
  set (referenceKeys :=
    map (fun segment => referenceKey this segment (token C)) (split "|" namespace)).
  destruct (Promise_all (map deleteValues referenceKeys) w1) as [[[]|e] w2] eqn:Hall;
    [|done].
  apply Promise_all_deleteValues in Hall as (_ & _ & _ & _ & Hgone).
  intros Hdel. apply store_del_spec in Hdel as (_ & _ & Hdel & Hfinal & _).
  specialize (Hfinal eq_refl). split.
  - eapply only_deletes_absent; [exact Hdel|].
    apply Hgone; [done| |].
    + rewrite Hs1. subst referenceKeys.
      pose proof (split_nonempty "|" namespace) as Hne.
      destruct (split "|" namespace) as [|segment segments] eqn:Hsplit; [done|].
      simpl. apply Hindexed. by left.
    + subst referenceKeys. pose proof (split_nonempty "|" namespace) as Hne.
      by destruct (split "|" namespace).
  - intros segment Hseg. rewrite Hfinal, lookup_del_keys.
    destruct (decide (referenceKey this segment (token C) ∈ referenceKeys))
      as [_|Hnin]; [done|].
    exfalso. apply Hnin. subst referenceKeys. apply list_elem_of_fmap.
    by exists segment.
Qed.

(** C2 (flush).  [super.flush] is called exactly when the deletion of the
    forever keys and the deletion of the standard keys are both fulfilled,
    and then as the last command.  When either is rejected, [super.flush] is
    not called, [flush] is rejected with the error of a rejected deletion
    (of the one that was rejected when only one was), and the other deletion
    has still run to its end: the world [flush] leaves is the one left by
    running both deletions. *)
Theorem flush_calls_super_flush_iff this w :
  let '(rF, w1) := deleteForeverKeys this w in
  let '(rS, w2) := deleteStandardKeys this w1 in
  let '(r, w') := flush this w in
  (SUPER_FLUSH ∈ issued (new_events w w') ↔ rF = Ok tt ∧ rS = Ok tt)
  ∧ (rF = Ok tt ∧ rS = Ok tt →
     trace w' = trace w2 ++ [Issue SUPER_FLUSH; Settle SUPER_FLUSH (is_ok r)])
  ∧ (¬ (rF = Ok tt ∧ rS = Ok tt) →
     w' = w2 ∧ ∃ e, r = Err e ∧ (rF = Err e ∨ rS = Err e)).
Proof.
  rewrite flush_unfold.
  destruct (deleteForeverKeys this w) as [rF w1] eqn:HF.
  destruct (deleteStandardKeys this w1) as [rS w2] eqn:HS.
  apply deleteKeysByReference_run in HF as (evsF & HtrF & HcF).
  apply deleteKeysByReference_run in HS as (evsS & HtrS & HcS).
  assert (SUPER_FLUSH ∉ issued (evsF ++ evsS)) as Hnot.
  { rewrite issued_app. intros [Hin|Hin]%elem_of_app.
    - by apply (proj1 (Forall_forall _ _) HcF) in Hin.
    - by apply (proj1 (Forall_forall _ _) HcS) in Hin. }
  destruct rF as [[]|eF], rS as [[]|eS]; simpl.
  - destruct (super_flush w2) as [r w'] eqn:Hf.
    apply super_flush_spec in Hf as (Htr & _).
    rewrite (new_events_app w w' ((evsF ++ evsS) ++ [Issue SUPER_FLUSH; Settle SUPER_FLUSH (is_ok r)]))
      by (by rewrite Htr, HtrS, HtrF, <- !app_assoc).
    split; [|split; [done|]].
    + split; [done|]. intros _. rewrite issued_app. apply elem_of_app. right. by left.
    + intros Hfail. by destruct Hfail.
  - rewrite (new_events_app w w2 (evsF ++ evsS)) by (by rewrite HtrS, HtrF, <- !app_assoc).
    split; [split; [done|by intros [_ ?]]|].
    split; [by intros [_ ?]|]. intros _. split; [done|]. exists eS. split; [done|by right].
  - rewrite (new_events_app w w2 (evsF ++ evsS)) by (by rewrite HtrS, HtrF, <- !app_assoc).
    split; [split; [done|by intros [? _]]|].
    split; [by intros [? _]|]. intros _. split; [done|]. exists eF. split; [done|by left].
  - rewrite (new_events_app w w2 (evsF ++ evsS)) by (by rewrite HtrS, HtrF, <- !app_assoc).
    split; [split; [done|by intros [? _]]|].
    split; [by intros [? _]|]. intros _. split; [done|]. exists eF. split; [done|by left].
Qed.

(** C3 (reference keys after members).  Once the namespace is resolved,
    [deleteKeysByReference] runs [deleteValues] for every per-segment
    reference key.  When all of them are fulfilled, it then sends one [DEL]
    that names all the reference keys, after every event of the member
    deletions, and that is its last command.  When one of them is rejected,
    the call is rejected with the error of a rejected member deletion, no
    command follows the member deletions, and every key that is not listed
    in one of the class's reference sets, a reference key among them, keeps
    its entry. *)
Theorem reference_keys_deleted_after_members this reference w :
  head (faults w) ≠ Some true →
  let namespace := tags_namespace this in
  let referenceKeys :=
    map (fun segment => referenceKey this segment reference)
        (split "|" namespace) in
  ∃ w1,
    getNamespace this w = (Ok namespace, w1)
    ∧ let results := outcomes (map deleteValues referenceKeys) w1 in
      let w2 := snd (Promise_all (map deleteValues referenceKeys) w1) in
      let r := fst (deleteKeysByReference this reference w) in
      let w' := snd (deleteKeysByReference this reference w) in
      (Forall (fun r0 => r0 = Ok tt) results →
         trace w' = trace w2 ++
           [Issue (DEL referenceKeys); Settle (DEL referenceKeys) (is_ok r)]
         ∧ (r = Ok tt → ∀ rk, rk ∈ referenceKeys → store w' !! rk = None))
      ∧ (¬ Forall (fun r0 => r0 = Ok tt) results →
         (∃ e, r = Err e ∧ Err e ∈ results)
         ∧ w' = w2
         ∧ ∀ k, (∀ rk, rk ∈ referenceKeys → k ∉ members_of (store w) rk) →
             store w' !! k = store w !! k).
Proof.
  intros Hgood namespace referenceKeys.
  destruct (getNamespace this w) as [rn w1] eqn:Hns.
  pose proof Hns as Hns'.
  apply getNamespace_spec in Hns' as (_ & Hs1 & _ & _ & Hname & _).
  specialize (Hname Hgood). subst rn. exists w1. split; [done|].
  rewrite deleteKeysByReference_unfold, Hns. simpl. fold namespace referenceKeys.
  pose proof (Promise_all_result (map deleteValues referenceKeys) w1) as Hres.
  destruct (Promise_all (map deleteValues referenceKeys) w1) as [r2 w2] eqn:Hall.
  simpl in Hres. split.
  - intros Hok. apply first_rejection_fulfilled in Hok. rewrite <- Hres in Hok.
    clear Hres. subst r2. destruct (store_del referenceKeys w2) as [r w'] eqn:Hdel.
    apply store_del_spec in Hdel as (Htr & _ & _ & Hfinal & _). simpl.
    split; [done|]. intros -> rk Hrk. rewrite Hfinal by done.
    rewrite lookup_del_keys. by destruct (decide (rk ∈ referenceKeys)).
  - intros Hfail. destruct r2 as [[]|e].
    + exfalso. apply Hfail. apply first_rejection_fulfilled. by rewrite <- Hres.
    + simpl. split; [|split; [done|]].
      * exists e. split; [done|]. by apply first_rejection_rejected.
      * intros k Hk.
        apply Promise_all_deleteValues in Hall as (_ & _ & _ & Hdel & _).
        rewrite Hs1 in Hdel. destruct (Hdel k) as [?|[Hin _]]; [done|].
        apply elem_of_concat in Hin as (l & Hl & Hin).
        apply list_elem_of_fmap in Hl as (rk & -> & Hrk).
        by destruct (Hk rk Hrk).
Qed.

(** C7 (chunking).  When the membership read of [deleteValues] is answered
    with [members], the deduplicated membership has no duplicates and the
    same elements; it is cut into ceil(M/1000) chunks of at most 1000 keys
    whose concatenation is the deduplicated membership.  The commands sent
    afterwards are [DEL]s of these chunks, each chunk at most once, with
    never more than 100 of them unanswered, and at least the first window
    (100 of them, or all when there are fewer) is sent.  [deleteValues] is
    fulfilled exactly when every [DEL] it sent was answered with success,
    which is the case when no command is faulted; and when it is fulfilled,
    exactly one [DEL] per chunk was sent, every one of them was answered
    with success, and every member is absent from the store. *)
Theorem deleteValues_chunks referenceKey w members w1 :
  store_smembers referenceKey w = (Ok members, w1) →
  let deduplicated := array_from_set members in
  let M := length deduplicated in
  let r := fst (deleteValues referenceKey w) in
  let w' := snd (deleteValues referenceKey w) in
  NoDup deduplicated
  ∧ (∀ x, x ∈ deduplicated ↔ x ∈ members)
  ∧ ∃ chunks,
      chunkArray deduplicated 1000 = Some chunks
      ∧ length chunks = Nat.div (M + 999) 1000
      ∧ Forall (fun chunk => length chunk ≤ 1000) chunks
      ∧ concat chunks = deduplicated
      ∧ issued (new_events w1 w') ⊆+ map DEL chunks
      ∧ in_flight_peak 0 (new_events w1 w') ≤ 100
      ∧ Nat.min 100 (length chunks) ≤ length (issued (new_events w1 w'))
      ∧ (r = Ok tt ↔
         Forall (fun answer => snd answer = true) (settled (new_events w1 w')))
      ∧ (no_faults w1 → r = Ok tt)
      ∧ (r = Ok tt →
         issued (new_events w1 w') ≡ₚ map DEL chunks
         ∧ settled (new_events w1 w') ≡ₚ map (fun chunk => (DEL chunk, true)) chunks
         ∧ ∀ x, x ∈ members → store w' !! x = None).
Proof.
  intros Hread deduplicated M. rewrite deleteValues_unfold, Hread.
  split; [apply array_from_set_NoDup|]. split; [apply array_from_set_elem|].
  destruct (chunkArray_spec deduplicated 1000) as (chunks & Hchunks & Hcat & Hall & Hlen);
    [lia|].
  exists chunks. fold deduplicated. rewrite Hchunks.
  split; [done|]. split; [done|].
  split; [eapply Forall_impl; [exact Hall|]; simpl; intros; lia|].
  split; [done|].
  destruct (Promise_map_del chunks 100 w1) as [r w'] eqn:Hp. simpl.
  assert (1 ≤ 100) as Hlimit by lia.
  destruct (Promise_map_del_answers chunks 100 w1 r w' Hlimit Hp) as [Hiff Hwindow].
  assert (no_faults w1 → r = Ok tt) as Hprogress.
  { intros Hnf. destruct (Promise_map_del_no_faults chunks 100 w1 Hnf) as (w2 & Hrun & _).
    rewrite Hrun in Hp. by injection Hp as <- _. }
  apply Promise_map_del_spec in Hp as (evs & Htr & Hpre & Hpeak & _ & Hok); [|lia].
  rewrite (new_events_app w1 w' evs Htr) in *.
  split; [destruct Hpre as [k ->]; by apply submseteq_inserts_r|]. split; [done|].
  split; [done|]. split; [done|]. split; [done|].
  intros Hr. destruct (Hok Hr) as (-> & -> & Hgone). split; [done|]. split; [done|].
  intros x Hx. apply Hgone. rewrite Hcat. by apply array_from_set_elem.
Qed.

Lemma deleteValues_empty referenceKey w :
  store w !! referenceKey = None ∨ store w !! referenceKey = Some (Members []) →
  head (faults w) ≠ Some true →
  ∃ w', deleteValues referenceKey w = (Ok tt, w')
    ∧ trace w' = trace w ++
        [Issue (SMEMBERS referenceKey); Settle (SMEMBERS referenceKey) true]
    ∧ store w' = store w
    ∧ faults w' = tail (faults w).
Proof.
  intros Hempty Hgood. rewrite deleteValues_unfold.
  destruct (store_smembers referenceKey w) as [r w1] eqn:Hm.
  apply smembers_reply in Hm as (Htr & Hs & Hf & _ & Hok).
  assert (members_of (store w) referenceKey = []) as Hnone
    by (unfold members_of; by destruct Hempty as [-> | ->]).
  assert (r = Ok []) as ->.
  { rewrite <- Hnone. apply Hok; [done|]. destruct Hempty; eauto. }
  exists w1. by rewrite Htr.
Qed.

Lemma Promise_all_empty referenceKeys w :
  (∀ rk, rk ∈ referenceKeys →
     store w !! rk = None ∨ store w !! rk = Some (Members [])) →
  no_faults w →
  ∃ w', Promise_all (map deleteValues referenceKeys) w = (Ok tt, w')
    ∧ trace w' = trace w ++
        concat (map (fun rk => [Issue (SMEMBERS rk); Settle (SMEMBERS rk) true])
                    referenceKeys)
    ∧ store w' = store w
    ∧ no_faults w'.
Proof.
  revert w. induction referenceKeys as [|rk rest IH]; intros w Hempty Hnf; simpl.
  - exists w. by rewrite app_nil_r.
  - destruct (deleteValues_empty rk w) as (w1 & -> & Htr1 & Hs1 & Hf1).
    { apply Hempty. by left. }
    { by apply no_faults_head. }
    destruct (IH w1) as (w2 & -> & Htr2 & Hs2 & Hnf2).
    { intros rk' Hrk'. rewrite Hs1. apply Hempty. by right. }
    { by eapply no_faults_tail. }
    exists w2. simpl. rewrite Htr2, Htr1, Hs2, Hs1, <- app_assoc. done.
Qed.

(** C8 (empty reference set).  When the set of a reference key is absent
    or has no members and the membership read is answered, [deleteValues]
    is fulfilled, the membership read is the only command it sends, and the
    store is left as it was.  When this holds of every reference key of the
    class and no command is faulted, [deleteKeysByReference] is fulfilled:
    after the namespace it sends the membership reads and then the one [DEL]
    of the reference keys, no other [DEL], and every command succeeds. *)
Theorem empty_reference_set this reference w setKey :
  store w !! setKey = None ∨ store w !! setKey = Some (Members []) →
  head (faults w) ≠ Some true →
  (∃ w', deleteValues setKey w = (Ok tt, w')
     ∧ new_events w w' = [Issue (SMEMBERS setKey); Settle (SMEMBERS setKey) true]
     ∧ store w' = store w)
  ∧ let referenceKeys :=
      map (fun segment => referenceKey this segment reference)
          (split "|" (tags_namespace this)) in
    ((∀ rk, rk ∈ referenceKeys →
        store w !! rk = None ∨ store w !! rk = Some (Members [])) →
     no_faults w →
     ∃ w', deleteKeysByReference this reference w = (Ok tt, w')
       ∧ issued (new_events w w') =
           GET_NAMESPACE :: map SMEMBERS referenceKeys ++ [DEL referenceKeys]
       ∧ settled (new_events w w') =
           (GET_NAMESPACE, true) :: map (fun rk => (SMEMBERS rk, true)) referenceKeys
             ++ [(DEL referenceKeys, true)]
       ∧ ∀ rk, rk ∈ referenceKeys → store w' !! rk = None).
Proof.
  intros Hempty Hgood. split.
  - destruct (deleteValues_empty setKey w) as (w' & Hrun & Htr & Hs & _);
      [done..|].
    exists w'. split; [done|]. split; [by apply new_events_app|done].
  - intros referenceKeys Hall Hnf. rewrite deleteKeysByReference_unfold.
    destruct (getNamespace this w) as [rn w1] eqn:Hns.
    apply getNamespace_spec in Hns as (Htr1 & Hs1 & Hf1 & _ & Hname & _).
    rewrite (Hname Hgood). simpl. fold referenceKeys.
    destruct (Promise_all_empty referenceKeys w1) as (w2 & -> & Htr2 & Hs2 & Hnf2).
    { intros rk Hrk. rewrite Hs1. by apply Hall. }
    { by eapply no_faults_tail. }
    destruct (store_del referenceKeys w2) as [r w'] eqn:Hdel.
    apply store_del_spec in Hdel as (Htr3 & _ & _ & Hfinal & Hok).
    rewrite (Hok (no_faults_head _ Hnf2)) in *.
    exists w'. split; [done|].
    rewrite (new_events_app w w'
      ([Issue GET_NAMESPACE; Settle GET_NAMESPACE true] ++
       concat (map (fun rk => [Issue (SMEMBERS rk); Settle (SMEMBERS rk) true])
                   referenceKeys) ++
       [Issue (DEL referenceKeys); Settle (DEL referenceKeys) true])).
    2:{ rewrite Htr3, Htr2, Htr1, (Hname Hgood). simpl. by rewrite <- !app_assoc. }
    split; [|split].
    + simpl. f_equal. rewrite issued_app. f_equal.
      clear. induction referenceKeys as [|rk rest IH]; simpl; [done|by rewrite IH].
    + simpl. f_equal. rewrite settled_app. f_equal.
      clear. induction referenceKeys as [|rk rest IH]; simpl; [done|by rewrite IH].
    + intros rk Hrk. rewrite Hfinal by done. rewrite lookup_del_keys.
      by destruct (decide (rk ∈ referenceKeys)).
Qed.

(** ** The key indexer *)

Lemma sadd_other key m s k : k ≠ key → sadd key m s !! k = s !! k.
Proof.
  intros Hne. unfold sadd. destruct (s !! key) as [[v|ms]|]; [done| |].
  - destruct (decide (m ∈ ms)); [done|]. by rewrite lookup_insert_ne.
  - by rewrite lookup_insert_ne.
Qed.

Lemma sadd_value key m s k v :
  s !! k = Some (Value v) → sadd key m s !! k = Some (Value v).
Proof.
  intros Hk. destruct (decide (k = key)) as [->|Hne].
  - unfold sadd. by rewrite Hk.
  - by rewrite sadd_other.
Qed.

Lemma sadd_added key m s :
  (∀ v, s !! key ≠ Some (Value v)) →
  ∃ ms, sadd key m s !! key = Some (Members ms) ∧ m ∈ ms
    ∧ ∀ x, x ∈ members_of s key → x ∈ ms.
Proof.
  intros Hset. unfold sadd, members_of.
  destruct (s !! key) as [[v|ms]|] eqn:Hk.
  - by destruct (Hset v).
  - destruct (decide (m ∈ ms)) as [Hin|Hnin].
    + exists ms. by rewrite Hk.
    + exists (ms ++ [m]). rewrite lookup_insert_eq. split; [done|].
      split; [apply elem_of_app; right; by left|].
      intros x Hx. apply elem_of_app. by left.
  - exists [m]. rewrite lookup_insert_eq. split; [done|].
    split; [by left|]. intros x Hx. by apply elem_of_nil in Hx.
Qed.

Lemma sadd_members key m s k x :
  x ∈ members_of s k → x ∈ members_of (sadd key m s) k.
Proof.
  destruct (decide (k = key)) as [->|Hne].
  - unfold members_of at 1. destruct (s !! key) as [[v|ms]|] eqn:Hk;
      try (intros H; by apply elem_of_nil in H).
    intros Hx. destruct (sadd_added key m s) as (ms' & Hms' & _ & Hsub).
    { intros v. by rewrite Hk. }
    unfold members_of at 1. rewrite Hms'. apply Hsub.
    unfold members_of. by rewrite Hk.
  - unfold members_of. by rewrite sadd_other.
Qed.

Lemma sadd_members_source key m s k x :
  x ∈ members_of (sadd key m s) k → x ∈ members_of s k ∨ (k = key ∧ x = m).
Proof.
  destruct (decide (k = key)) as [->|Hne].
  - unfold sadd, members_of. destruct (s !! key) as [[v|ms]|] eqn:Hk.
    + rewrite Hk. by left.
    + destruct (decide (m ∈ ms)).
      * rewrite Hk. by left.
      * rewrite lookup_insert_eq. intros [?|Hx]%elem_of_app; [by left|].
        apply list_elem_of_singleton in Hx. by right.
    + rewrite lookup_insert_eq. intros Hx.
      apply list_elem_of_singleton in Hx. by right.
  - unfold members_of. rewrite sadd_other by done. by left.
Qed.

Lemma sadd_keeps_set key m s k :
  (∀ v, s !! k ≠ Some (Value v)) → ∀ v, sadd key m s !! k ≠ Some (Value v).
Proof.
  intros Hset v. destruct (decide (k = key)) as [->|Hne].
  - destruct (sadd_added key m s Hset) as (ms & -> & _). done.
  - rewrite sadd_other by done. apply Hset.
Qed.

Lemma pipeline_store sadds s :
  let s' := foldl (fun s0 '(k, m) => sadd k m s0) s sadds in
  (∀ k v, s !! k = Some (Value v) → s' !! k = Some (Value v))
  ∧ (∀ k, k ∉ map fst sadds → s' !! k = s !! k)
  ∧ (∀ k x, x ∈ members_of s k → x ∈ members_of s' k)
  ∧ (∀ k x, x ∈ members_of s' k → x ∈ members_of s k ∨ (k, x) ∈ sadds)
  ∧ (∀ k m, (k, m) ∈ sadds → (∀ v, s !! k ≠ Some (Value v)) →
       ∃ ms, s' !! k = Some (Members ms) ∧ m ∈ ms).
Proof.
  revert s. induction sadds as [|[key m] sadds IH]; intros s; simpl.
  - repeat split; try done.
    + by left.
    + intros k m Hin. by apply elem_of_nil in Hin.
  - destruct (IH (sadd key m s)) as (Hval & Hout & Hgrow & Hsrc & Hadd).
    repeat split.
    + intros k v Hk. apply Hval. by apply sadd_value.
    + intros k Hk. rewrite Hout.
      * apply sadd_other. intros ->. apply Hk. by left.
      * intros Hin. apply Hk. by right.
    + intros k x Hx. apply Hgrow. by apply sadd_members.
    + intros k x Hx. apply Hsrc in Hx as [Hx|Hx]; [|right; by right].
      apply sadd_members_source in Hx as [Hx|[-> ->]]; [by left|].
      right. by left.
    + intros k m' Hin Hset. apply elem_of_cons in Hin as [[= -> ->]|Hin].
      * destruct (sadd_added key m s Hset) as (ms & Hms & Hm & _).
        assert (m ∈ members_of (sadd key m s) key) as Hm'
          by (unfold members_of; by rewrite Hms).
        apply Hgrow in Hm'. unfold members_of in Hm'.
        destruct (foldl _ _ _ !! key) as [[v|ms']|] eqn:Hk;
          try (by apply elem_of_nil in Hm').
        by exists ms'.
      * apply Hadd; [done|]. by apply sadd_keeps_set.
Qed.

Lemma pushKeys_spec sha1 this namespace key reference w r w' :
  pushKeys sha1 this namespace key reference w = (r, w') →
  let sadds :=
    map (fun segment =>
           (referenceKey this segment reference, fullKey sha1 this namespace key))
        (split "|" namespace) in
  trace w' = trace w ++ [Issue (PIPELINE sadds); Settle (PIPELINE sadds) (is_ok r)]
  ∧ faults w' = tail (faults w)
  ∧ ((head (faults w) = Some true ∧ r = Err StoreUnavailable ∧ store w' = store w)
     ∨ (head (faults w) ≠ Some true ∧ r = Ok tt
        ∧ store w' = foldl (fun s0 '(k, m) => sadd k m s0) (store w) sadds)).
Proof.
  unfold pushKeys, pipeline_exec. intros H.
  apply call_spec in H as (Htr & Hf & [(Hbad & -> & Hs)|(Hgood & Hs)]).
  - split; [done|]. split; [done|]. by left.
  - unfold pipeline_sem in Hs. injection Hs as <- <-.
    split; [done|]. split; [done|]. right. by split.
Qed.

(** C4 (reference key).  The reference key of a segment for an expiration
    class is the tag prefix, the segment, a colon and the class token,
    [forever_ref] or [standard_ref]; for the namespace users|premium and the
    standard class the two reference keys are the prefix followed by
    users:standard_ref and by premium:standard_ref, and these are the keys
    [pushKeys] adds to. *)
Theorem referenceKey_format sha1 this segment C w :
  referenceKey this segment (token C) =
    tagPrefix this +:+ segment +:+ ":" +:+ token C
  ∧ token Forever = "forever_ref"
  ∧ token Standard = "standard_ref"
  ∧ map (fun s => referenceKey this s (token Standard)) (split "|" "users|premium") =
      [tagPrefix this +:+ "users:standard_ref";
       tagPrefix this +:+ "premium:standard_ref"]
  ∧ issued (new_events w
      (snd (pushKeys sha1 this "users|premium" "u:42" (token Standard) w))) =
      [PIPELINE
         [(tagPrefix this +:+ "users:standard_ref",
           keyPrefix this +:+ sha1 "users|premium" +:+ ":u:42");
          (tagPrefix this +:+ "premium:standard_ref",
           keyPrefix this +:+ sha1 "users|premium" +:+ ":u:42")]].
Proof.
  split; [done|]. split; [done|]. split; [done|]. split; [done|].
  destruct (pushKeys sha1 this "users|premium" "u:42" (token Standard) w)
    as [r w'] eqn:Hp.
  apply pushKeys_spec in Hp as (Htr & _). simpl.
  by rewrite (new_events_app _ _ _ Htr).
Qed.

(** C5 (fully-qualified cache key).  The key [pushKeys] records is the
    store's key prefix, the sha1 digest of the whole namespace string, a
    colon and the logical key.  [pushKeys] sends exactly one batch, never
    empty, and this key is the member of every [SADD] of it; when the batch
    is fulfilled the key is a member of the reference set of every segment
    (of every reference key that does not hold a plain value), and it is the
    only member a reference set can gain. *)
Theorem fullKey_recorded sha1 this namespace key reference w :
  let K := keyPrefix this +:+ sha1 namespace +:+ ":" +:+ key in
  let segments := split "|" namespace in
  let sadds := map (fun segment => (referenceKey this segment reference, K)) segments in
  let r := fst (pushKeys sha1 this namespace key reference w) in
  let w' := snd (pushKeys sha1 this namespace key reference w) in
  fullKey sha1 this namespace key = K
  ∧ issued (new_events w w') = [PIPELINE sadds]
  ∧ sadds ≠ []
  ∧ Forall (fun sadd => snd sadd = K) sadds
  ∧ (∀ c, c ∈ issued (new_events w w') →
       ∃ sadds, c = PIPELINE sadds ∧ sadds ≠ []
         ∧ Forall (fun sadd => snd sadd = K) sadds)
  ∧ (r = Ok tt → ∀ segment, segment ∈ segments →
       (∀ v, store w !! referenceKey this segment reference ≠ Some (Value v)) →
       K ∈ members_of (store w') (referenceKey this segment reference))
  ∧ (∀ k x, x ∈ members_of (store w') k → x ∈ members_of (store w) k ∨ x = K).
Proof.
  intros K segments sadds. split; [done|].
  assert (sadds ≠ []) as Hne.
  { subst sadds segments. pose proof (split_nonempty "|" namespace).
    by destruct (split "|" namespace). }
  assert (Forall (fun sadd => snd sadd = K) sadds) as HK.
  { apply Forall_forall. by intros sadd (segment & -> & _)%list_elem_of_fmap. }
  destruct (pushKeys sha1 this namespace key reference w) as [r w'] eqn:Hp.
  apply pushKeys_spec in Hp as (Htr & _ & Hs). simpl.
  change (fullKey sha1 this namespace key) with K in Htr, Hs.
  fold segments sadds in Htr, Hs.
  rewrite (new_events_app _ _ _ Htr). simpl.
  split; [done|]. split; [done|]. split; [done|]. split; [|split].
  - intros c Hc. apply list_elem_of_singleton in Hc as ->. by exists sadds.
  - intros -> segment Hseg Hset.
    destruct Hs as [(_ & ? & _)|(_ & _ & ->)]; [done|].
    destruct (pipeline_store sadds (store w)) as (_ & _ & _ & _ & Hadd).
    destruct (Hadd (referenceKey this segment reference) K) as (ms & Hms & Hin);
      [|done|].
    + apply list_elem_of_fmap. by exists segment.
    + unfold members_of. by rewrite Hms.
  - intros k x. destruct Hs as [(_ & _ & ->)|(_ & _ & ->)]; [by left|].
    intros Hx. apply pipeline_store in Hx as [Hx|Hx]; [by left|].
    apply list_elem_of_fmap in Hx as (segment & [= _ ->] & _). by right.
Qed.

(** C6 (key indexer).  [pushKeys] splits the namespace on the bar into
    segments (joined by bars they give the namespace back, and none holds a
    bar) and sends one pipeline whose commands are one [SADD] per segment,
    in order, repeated segments included, each adding the fully-qualified
    key to the segment's reference set.  Nothing else is sent.  Plain values
    and every key that is not one of these reference keys are left as they
    were, sets only gain members, and when the batch is fulfilled every
    reference key that does not hold a plain value has the fully-qualified
    key as a member. *)
Theorem pushKeys_single_batch sha1 this namespace key reference w :
  let K := fullKey sha1 this namespace key in
  let segments := split "|" namespace in
  let sadds := map (fun segment => (referenceKey this segment reference, K)) segments in
  let r := fst (pushKeys sha1 this namespace key reference w) in
  let w' := snd (pushKeys sha1 this namespace key reference w) in
  join "|" segments = namespace
  ∧ Forall (fun segment => occurs "|" segment = false) segments
  ∧ new_events w w' = [Issue (PIPELINE sadds); Settle (PIPELINE sadds) (is_ok r)]
  ∧ length sadds = length segments
  ∧ (∀ k v, store w !! k = Some (Value v) → store w' !! k = Some (Value v))
  ∧ (∀ k, k ∉ map fst sadds → store w' !! k = store w !! k)
  ∧ (∀ k x, x ∈ members_of (store w) k → x ∈ members_of (store w') k)
  ∧ (r = Ok tt → ∀ segment, segment ∈ segments →
       (∀ v, store w !! referenceKey this segment reference ≠ Some (Value v)) →
       K ∈ members_of (store w') (referenceKey this segment reference)).
Proof.
  intros K segments sadds.
  split; [apply join_split|]. split; [apply split_no_separator|].
  destruct (pushKeys sha1 this namespace key reference w) as [r w'] eqn:Hp.
  apply pushKeys_spec in Hp as (Htr & _ & Hs). simpl. fold K segments sadds in Htr, Hs.
  split; [by apply new_events_app|]. split; [apply length_map|].
  destruct Hs as [(_ & -> & ->)|(_ & -> & ->)]; [by repeat split|].
  destruct (pipeline_store sadds (store w)) as (Hval & Hout & Hgrow & _ & Hadd).
  split; [done|]. split; [done|]. split; [done|].
  intros _ segment Hseg Hset.
  destruct (Hadd (referenceKey this segment reference) K) as (ms & Hms & HK);
    [|done|].
  - apply list_elem_of_fmap. by exists segment.
  - unfold members_of. by rewrite Hms.
Qed.

(** ** The facade *)

Lemma list_ascii_of_append s1 s2 :
  String.list_ascii_of_string (s1 +:+ s2) =
  String.list_ascii_of_string s1 ++ String.list_ascii_of_string s2.
Proof. induction s1 as [|c s1 IH]; simpl; [done|]. by rewrite IH. Qed.

(** A standard reference key is never a forever reference key, whatever
    the segments. *)
Lemma standard_forever_disjoint this segment segment' :
  referenceKey this segment REFERENCE_KEY_STANDARD ≠
  referenceKey this segment' REFERENCE_KEY_FOREVER.
Proof.
  unfold referenceKey. intros H. apply (inj (String.app _)) in H.
  apply (f_equal (fun s => List.rev (String.list_ascii_of_string s) !! 4)) in H.
  rewrite !list_ascii_of_append, !rev_app_distr in H. simpl in H. done.
Qed.

Lemma opaque_call_spec c w r w' :
  call c opaque_sem w = (r, w') →
  trace w' = trace w ++ [Issue c; Settle c (is_ok r)] ∧ store w' = store w.
Proof.
  intros H. apply call_spec in H as (Htr & _ & [(_ & _ & Hs)|(_ & Hs)]); [done|].
  injection Hs as <- <-. done.
Qed.

Lemma index_then_primitive sha1 this key reference (primitive : command) w :
  let namespace := tags_namespace this in
  let sadds :=
    map (fun segment =>
           (referenceKey this segment reference, fullKey sha1 this namespace key))
        (split "|" namespace) in
  let resolved := bool_decide (head (faults w) ≠ Some true) in
  let w' :=
    snd (Promise_all
           [ (let* namespace := getNamespace this in
              pushKeys sha1 this namespace key reference);
             call primitive opaque_sem ] w) in
  issued (new_events w w') =
    GET_NAMESPACE :: (if resolved then [PIPELINE sadds] else []) ++ [primitive].
Proof.
  intros namespace sadds resolved. simpl. unfold bind.
  destruct (getNamespace this w) as [rn w1] eqn:Hns.
  apply getNamespace_spec in Hns as (Htr1 & _ & _ & Hname & Hok & Hrej).
  subst resolved. case_bool_decide as Hgood.
  - rewrite (Hok Hgood) in *. fold namespace.
    destruct (pushKeys sha1 this namespace key reference w1) as [r2 w2] eqn:Hp.
    apply pushKeys_spec in Hp as (Htr2 & _).
    destruct (call primitive opaque_sem w2) as [r3 w3] eqn:Hc.
    apply opaque_call_spec in Hc as (Htr3 & _). simpl.
    erewrite new_events_app; [|by rewrite Htr3, Htr2, Htr1, <- !app_assoc].
    done.
  - assert (head (faults w) = Some true) as Hbad
      by (destruct (head (faults w)) as [[|]|]; [done|by destruct Hgood..]).
    rewrite (Hrej Hbad) in *.
    + destruct (call primitive opaque_sem w1) as [r3 w3] eqn:Hc.
      apply opaque_call_spec in Hc as (Htr3 & _). simpl.
      erewrite new_events_app; [|by rewrite Htr3, Htr1, <- !app_assoc].
      done.
Qed.

(** C9 (increment and decrement).  Whatever the key, the delta and the
    store hold, [increment] and [decrement] resolve the namespace, call the
    primitive of the parent class with the delta (1 when left out) and, once
    the namespace is resolved, send one batch that adds the fully-qualified
    key to the [standard_ref] reference key of every segment.  None of the
    keys added to is the forever reference key of any segment.  The primitive
    is called whether or not the namespace was resolved, and the batch is
    sent whatever the primitive answers: the two are joined by
    [Promise.all], neither waits for the other. *)
Theorem increment_decrement_index_standard sha1 this key value w :
  let namespace := tags_namespace this in
  let K := fullKey sha1 this namespace key in
  let sadds :=
    map (fun segment => (referenceKey this segment (token Standard), K))
        (split "|" namespace) in
  let resolved := bool_decide (head (faults w) ≠ Some true) in
  let delta := default 1%Z value in
  issued (new_events w (snd (increment sha1 this key value w))) ≡ₚ
    GET_NAMESPACE :: SUPER_INCREMENT key delta ::
      (if resolved then [PIPELINE sadds] else [])
  ∧ issued (new_events w (snd (decrement sha1 this key value w))) ≡ₚ
    GET_NAMESPACE :: SUPER_DECREMENT key delta ::
      (if resolved then [PIPELINE sadds] else [])
  ∧ (∀ rk segment, rk ∈ map fst sadds →
       rk ≠ referenceKey this segment (token Forever))
  ∧ token Standard = "standard_ref".
Proof.
  intros namespace K sadds resolved delta.
  unfold increment, decrement, pushStandardKeys, super_increment, super_decrement.
  fold delta. rewrite !index_then_primitive. fold namespace K sadds resolved.
  split; [|split; [|split; [|done]]].
  - destruct resolved; simpl; [apply perm_skip, perm_swap|done].
  - destruct resolved; simpl; [apply perm_skip, perm_swap|done].
  - intros rk segment Hrk. apply list_elem_of_fmap in Hrk as ([rk' m] & -> & Hin).
    apply list_elem_of_fmap in Hin as (segment' & [= -> ->] & _). simpl.
    apply standard_forever_disjoint.
Qed.

Lemma set_unfold sha1 this key value ttl w :
  set sha1 this key value ttl w =
  match getNamespace this w with
  | (Ok namespace, w1) =>
      Promise_all
        [ pushKeys sha1 this namespace key
            (if truthy ttl then REFERENCE_KEY_STANDARD else REFERENCE_KEY_FOREVER);
          super_set key value ttl ] w1
  | (Err e, w1) => (Err e, w1)
  end.
Proof.
  unfold set, bind. by destruct (getNamespace this w) as [[namespace|e] w1].
Qed.


(** ** The claims at sample inputs *)

Example split_users_premium : split "|" "users|premium" = ["users"; "premium"].
Proof. reflexivity. Qed.

Example split_keeps_empty_segments : split "|" "a||b|" = ["a"; ""; "b"; ""].
Proof. reflexivity. Qed.

Example array_from_set_first_occurrence :
  array_from_set ["a"; "b"; "a"; "c"; "b"] = ["a"; "b"; "c"].
Proof. reflexivity. Qed.

Example chunkArray_2001 :
  length <$> default [] (chunkArray (seq 0 2001) 1000) = [1000; 1000; 1].
Proof. vm_compute. reflexivity. Qed.

Example chunkArray_zero_size_diverges : chunkArray [1; 2] 0 = None.
Proof. reflexivity. Qed.

(** With 150 chunks the window of [Promise.map] is full: 100 in flight. *)
Example window_is_reached :
  let chunks := map (fun n => [pretty n]) (seq 0 150) in
  let w' := snd (Promise_map_del chunks 100 fresh_world) in
  in_flight_peak 0 (trace w') = 100 ∧ length (issued (trace w')) = 150.
Proof. vm_compute. split; reflexivity. Qed.

Example indexed_world_store :
  store indexed_world =
  {[ "tag:users:standard_ref" := Members ["app:#users|premium:u:42"];
     "tag:premium:standard_ref" := Members ["app:#users|premium:u:42"] ]}.
Proof. vm_compute. reflexivity. Qed.

(** A standard deletion that fails mid-way: the forever class is cleaned,
    the standard reference keys stay, [super.flush] is not called. *)
Example flush_standard_deletion_fails :
  let w :=
    mkWorld (store indexed_world)
      [false; false; false; false; false; false; true] [] in
  let '(r, w') := flush sample_cache w in
  r = Err StoreUnavailable
  ∧ issued (trace w') =
      [GET_NAMESPACE; SMEMBERS "tag:users:forever_ref";
       SMEMBERS "tag:premium:forever_ref";
       DEL ["tag:users:forever_ref"; "tag:premium:forever_ref"];
       GET_NAMESPACE; SMEMBERS "tag:users:standard_ref";
       DEL ["app:#users|premium:u:42"];
       SMEMBERS "tag:premium:standard_ref";
       DEL ["app:#users|premium:u:42"]]
  ∧ store w' !! "tag:users:standard_ref" =
      Some (Members ["app:#users|premium:u:42"]).
Proof. vm_compute. repeat split. Qed.

(** A forever deletion that fails: the standard class is still cleaned. *)
Example flush_forever_deletion_fails :
  let w := mkWorld (store indexed_world) [false; true] [] in
  let '(r, w') := flush sample_cache w in
  r = Err StoreUnavailable
  ∧ issued (trace w') =
      [GET_NAMESPACE; SMEMBERS "tag:users:forever_ref";
       SMEMBERS "tag:premium:forever_ref";
       GET_NAMESPACE; SMEMBERS "tag:users:standard_ref";
       DEL ["app:#users|premium:u:42"];
       SMEMBERS "tag:premium:standard_ref";
       DEL ["app:#users|premium:u:42"];
       DEL ["tag:users:standard_ref"; "tag:premium:standard_ref"]]
  ∧ store w' = ∅.
Proof. vm_compute. repeat split. Qed.

(** A ttl of 0 is present and still indexes under the forever keys. *)
Example set_ttl_zero_is_forever :
  issued (trace (snd (set sample_digest sample_cache "u:42" "v" (Num 0%float) fresh_world))) =
    [GET_NAMESPACE;
     PIPELINE [("tag:users:forever_ref", "app:#users|premium:u:42");
               ("tag:premium:forever_ref", "app:#users|premium:u:42")];
     SUPER_SET "u:42" "v" (Num 0%float)].
Proof. vm_compute. reflexivity. Qed.

Lemma flush_completeness_witness :
  let w' := snd (deleteKeysByReference sample_cache (token Standard) indexed_world) in
  store w' !! fullKey sample_digest sample_cache "users|premium" "u:42" = None
  ∧ ∀ segment, segment ∈ split "|" "users|premium" →
      store w' !! referenceKey sample_cache segment (token Standard) = None.
Proof.
  apply (flush_completeness sample_digest sample_cache Standard "u:42" indexed_world).
  - intros segment Hseg. change (segment ∈ ["users"; "premium"]) in Hseg.
    repeat (apply elem_of_cons in Hseg as [->|Hseg]);
      [vm_compute; left..|by apply elem_of_nil in Hseg].
  - vm_compute. reflexivity.
Defined.

Lemma reference_keys_deleted_after_members_witness :
  let faulted := mkWorld (store indexed_world) [false; false; true] [] in
  head (faults indexed_world) ≠ Some true
  ∧ (∃ w1, getNamespace sample_cache indexed_world = (Ok "users|premium", w1)
       ∧ ∀ rk, rk ∈ ["tag:users:standard_ref"; "tag:premium:standard_ref"] →
           store (snd (deleteKeysByReference sample_cache "standard_ref" indexed_world))
             !! rk = None)
  ∧ fst (deleteKeysByReference sample_cache "standard_ref" faulted)
      = Err StoreUnavailable
  ∧ store (snd (deleteKeysByReference sample_cache "standard_ref" faulted))
      !! "tag:users:standard_ref" = Some (Members ["app:#users|premium:u:42"]).
Proof.
  intros faulted.
  assert (head (faults indexed_world) ≠ Some true) as Hgood by (vm_compute; discriminate).
  split; [exact Hgood|]. split.
  - destruct (reference_keys_deleted_after_members sample_cache "standard_ref"
                indexed_world Hgood) as (w1 & Hns & Hok & _).
    exists w1. split; [exact Hns|].
    assert (w1 = snd (getNamespace sample_cache indexed_world)) as Hw1
      by (by rewrite Hns).
    rewrite Hw1 in Hok. apply Hok.
    + vm_compute. repeat constructor.
    + vm_compute. reflexivity.
  - assert (head (faults faulted) ≠ Some true) as Hgood' by (vm_compute; discriminate).
    destruct (reference_keys_deleted_after_members sample_cache "standard_ref"
                faulted Hgood') as (w1 & Hns & _ & Hfail).
    assert (w1 = snd (getNamespace sample_cache faulted)) as Hw1
      by (by rewrite Hns).
    rewrite Hw1 in Hfail. destruct Hfail as ((e & He & _) & _ & Hkeep).
    { vm_compute. intros H. inversion H as [|? ? Hhead _]. discriminate Hhead. }
    split; [vm_compute; reflexivity|].
    rewrite Hkeep; [vm_compute; reflexivity|].
    intros rk Hrk. change (rk ∈ ["tag:users:standard_ref"; "tag:premium:standard_ref"]) in Hrk.
    repeat (apply elem_of_cons in Hrk as [->|Hrk]);
      [vm_compute; intros H; repeat (apply elem_of_cons in H as [H|H]; [discriminate H|]);
       by apply elem_of_nil in H ..
      |by apply elem_of_nil in Hrk].
Defined.

Lemma deleteValues_chunks_witness :
  let r := fst (deleteValues "tag:users:standard_ref" repeated_world) in
  let w' := snd (deleteValues "tag:users:standard_ref" repeated_world) in
  store repeated_world !! "k1" = Some (Value "v1")
  ∧ array_from_set ["k1"; "k2"; "k1"] = ["k1"; "k2"]
  ∧ chunkArray ["k1"; "k2"] 1000 = Some [["k1"; "k2"]]
  ∧ r = Ok tt
  ∧ issued (trace w') = [SMEMBERS "tag:users:standard_ref"; DEL ["k1"; "k2"]]
  ∧ in_flight_peak 0 (trace w') ≤ 100
  ∧ store w' !! "k1" = None.
Proof.
  intros r w'.
  destruct (deleteValues_chunks "tag:users:standard_ref" repeated_world
              ["k1"; "k2"; "k1"]
              (snd (store_smembers "tag:users:standard_ref" repeated_world)))
    as (_ & _ & chunks & Hchunks & _ & _ & _ & _ & _ & _ & _ & Hprogress & Hok).
  { vm_compute. reflexivity. }
  assert (r = Ok tt) as Hr by (apply Hprogress; vm_compute; constructor).
  split; [vm_compute; reflexivity|].
  split; [reflexivity|]. split; [reflexivity|]. split; [exact Hr|].
  split; [vm_compute; reflexivity|].
  split; [vm_compute; lia|].
  apply (Hok Hr). by left.
Defined.

Lemma empty_reference_set_witness :
  (∃ w', deleteValues "tag:users:forever_ref" fresh_world = (Ok tt, w')
     ∧ store w' = ∅)
  ∧ ∃ w', deleteKeysByReference sample_cache "forever_ref" fresh_world = (Ok tt, w')
      ∧ issued (new_events fresh_world w') =
          [GET_NAMESPACE; SMEMBERS "tag:users:forever_ref";
           SMEMBERS "tag:premium:forever_ref";
           DEL ["tag:users:forever_ref"; "tag:premium:forever_ref"]].
Proof.
  destruct (empty_reference_set sample_cache "forever_ref" fresh_world
              "tag:users:forever_ref") as [(w1 & Hrun & _ & Hs) Hflush].
  { left. reflexivity. }
  { vm_compute. discriminate. }
  split; [by exists w1|].
  destruct Hflush as (w' & Hrun' & Hissued & _).
  { intros rk _. left. apply lookup_empty. }
  { constructor. }
  exists w'. split; [exact Hrun'|exact Hissued].
Defined.

(** ** Runs without faults *)

Lemma only_deletes_keeps_set ks s s' k :
  only_deletes ks s s' →
  (∀ v, s !! k ≠ Some (Value v)) → ∀ v, s' !! k ≠ Some (Value v).
Proof. intros H Hset v. destruct (H k) as [->|[_ ->]]; [apply Hset|done]. Qed.

Lemma deleteValues_no_faults referenceKey w :
  no_faults w →
  (∀ v, store w !! referenceKey ≠ Some (Value v)) →
  ∃ w', deleteValues referenceKey w = (Ok tt, w') ∧ no_faults w'.
Proof.
  intros Hnf Hset. rewrite deleteValues_unfold.
  destruct (store_smembers referenceKey w) as [r w1] eqn:Hm.
  apply smembers_reply in Hm as (_ & _ & Hf & _ & Hok).
  rewrite Hok; [|by apply no_faults_head|].
  - destruct (chunkArray_spec (array_from_set (members_of (store w) referenceKey)) 1000)
      as (chunks & -> & _); [lia|].
    apply Promise_map_del_no_faults. by eapply no_faults_tail.
  - destruct (store w !! referenceKey) as [[v|ms]|] eqn:Hk; [|eauto..].
    by destruct (Hset v).
Qed.

Lemma Promise_all_no_faults referenceKeys w :
  no_faults w →
  (∀ rk, rk ∈ referenceKeys → ∀ v, store w !! rk ≠ Some (Value v)) →
  ∃ w', Promise_all (map deleteValues referenceKeys) w = (Ok tt, w')
    ∧ no_faults w'.
Proof.
  revert w. induction referenceKeys as [|rk rest IH]; intros w Hnf Hset; simpl.
  - by exists w.
  - destruct (deleteValues_no_faults rk w Hnf) as (w1 & Hrun & Hnf1).
    { apply Hset. by left. }
    rewrite Hrun. apply deleteValues_run in Hrun as (_ & _ & _ & Hdel & _).
    destruct (IH w1 Hnf1) as (w2 & -> & Hnf2).
    { intros rk' Hrk'. eapply only_deletes_keeps_set; [exact Hdel|].
      apply Hset. by right. }
    by exists w2.
Qed.

Lemma deleteKeysByReference_store this reference w r w' :
  deleteKeysByReference this reference w = (r, w') →
  let referenceKeys :=
    map (fun segment => referenceKey this segment reference)
        (split "|" (tags_namespace this)) in
  only_deletes
    (concat (map (members_of (store w)) referenceKeys) ++ referenceKeys)
    (store w) (store w').
Proof.
  rewrite deleteKeysByReference_unfold.
  destruct (getNamespace this w) as [[ns|e] w1] eqn:Hns;
    apply getNamespace_spec in Hns as (_ & Hs1 & _ & Hname & _).
  - rewrite (Hname ns eq_refl). simpl.
    destruct (Promise_all _ w1) as [[[]|e] w2] eqn:Hall;
      apply Promise_all_deleteValues in Hall as (_ & _ & _ & Hdel & _);
      rewrite Hs1 in Hdel.
    + intros Hd. apply store_del_spec in Hd as (_ & _ & Hdel' & _).
      by eapply only_deletes_trans.
    + intros [= <- <-]. eapply only_deletes_mono; [|exact Hdel].
      intros k Hk. apply elem_of_app. by left.
  - intros [= <- <-]. rewrite Hs1. apply only_deletes_refl.
Qed.

Lemma deleteKeysByReference_no_faults this reference w :
  no_faults w →
  let referenceKeys :=
    map (fun segment => referenceKey this segment reference)
        (split "|" (tags_namespace this)) in
  (∀ rk, rk ∈ referenceKeys → ∀ v, store w !! rk ≠ Some (Value v)) →
  ∃ w', deleteKeysByReference this reference w = (Ok tt, w')
    ∧ no_faults w'
    ∧ ∀ rk, rk ∈ referenceKeys → store w' !! rk = None.
Proof.
  intros Hnf referenceKeys Hset. rewrite deleteKeysByReference_unfold.
  destruct (getNamespace this w) as [rn w1] eqn:Hns.
  apply getNamespace_spec in Hns as (_ & Hs1 & Hf1 & _ & Hname & _).
  rewrite (Hname (no_faults_head w Hnf)). simpl. fold referenceKeys.
  destruct (Promise_all_no_faults referenceKeys w1) as (w2 & -> & Hnf2).
  { by eapply no_faults_tail. }
  { intros rk Hrk. rewrite Hs1. by apply Hset. }
  destruct (store_del referenceKeys w2) as [r w'] eqn:Hdel.
  apply store_del_spec in Hdel as (_ & Hf3 & _ & Hfinal & Hok).
  rewrite (Hok (no_faults_head w2 Hnf2)) in *.
  exists w'. split; [done|]. split; [by eapply no_faults_tail|].
  intros rk Hrk. rewrite Hfinal by done. rewrite lookup_del_keys.
  by destruct (decide (rk ∈ referenceKeys)).
Qed.

(** ** Further properties of [chunkArray] *)

Lemma chunk_loop_slices {A} (array : list A) n fuel i out :
  0 < n → length array - i < fuel →
  ∃ rest, chunk_loop fuel i array n out = Some (out ++ rest)
    ∧ ∀ j chunk, rest !! j = Some chunk →
        chunk = take n (drop (i + j * n) array) ∧ i + j * n < length array.
Proof.
  intros Hn. revert i out. induction fuel as [|fuel IH]; intros i out Hfuel; [lia|].
  simpl. destruct (Nat.ltb_spec i (length array)) as [Hlt|Hge].
  - destruct (IH (i + n) (out ++ [slice array i (i + n)])) as (rest & -> & Hrest);
      [lia|].
    exists (slice array i (i + n) :: rest). rewrite <- app_assoc. split; [done|].
    intros [|j] chunk Hj; simpl in Hj.
    + injection Hj as <-. rewrite Nat.add_0_r. split; [|done].
      unfold slice. f_equal. lia.
    + apply Hrest in Hj as [-> Hlt']. simpl.
      replace (i + (n + j * n)) with (i + n + j * n) by lia. done.
  - exists []. rewrite app_nil_r. split; [done|]. by intros j chunk Hj.
Qed.

(** X1.  For a positive chunk size [chunkArray] returns chunks whose
    concatenation is the array, and the chunk at index [i] is the slice of
    the array from [i * chunkSize] of length [chunkSize] (shorter only where
    the array ends): no chunk is empty, and every chunk but the last holds
    exactly [chunkSize] items. *)
Theorem chunkArray_slices {A} (array : list A) n :
  0 < n →
  ∃ chunks, chunkArray array n = Some chunks
    ∧ concat chunks = array
    ∧ length chunks = Nat.div (length array + (n - 1)) n
    ∧ ∀ i chunk, chunks !! i = Some chunk →
        chunk = take n (drop (i * n) array)
        ∧ chunk ≠ []
        ∧ (S i < length chunks → length chunk = n).
Proof.
  intros Hn. destruct (chunkArray_spec array n Hn) as (chunks & Hrun & Hcat & _ & Hlen).
  exists chunks. split; [done|]. split; [done|]. split; [done|].
  unfold chunkArray in Hrun.
  destruct (chunk_loop_slices array n (S (length array)) 0 [] Hn) as (rest & Hrun' & Hrest);
    [lia|].
  rewrite Hrun in Hrun'. injection Hrun' as ->.
  intros i chunk Hi. destruct (Hrest i chunk Hi) as [-> Hlt]. simpl in *.
  split; [done|]. split.
  - intros Hnil. apply (f_equal length) in Hnil.
    rewrite length_take, length_drop in Hnil. simpl in Hnil. lia.
  - intros Hnext. destruct (lookup_lt_is_Some_2 rest (S i) Hnext) as [next Hnext'].
    apply Hrest in Hnext' as [_ Hlt']. simpl in Hlt'.
    rewrite length_take, length_drop. lia.
Qed.

Lemma chunkArray_slices_witness :
  0 < 2 ∧ chunkArray [1; 2; 3; 4; 5] 2 = Some [[1; 2]; [3; 4]; [5]].
Proof.
  split; [lia|].
  destruct (chunkArray_slices [1; 2; 3; 4; 5] 2) as (chunks & Hrun & _); [lia|].
  rewrite Hrun. f_equal. vm_compute in Hrun. by injection Hrun as <-.
Defined.

(** X2.  With a chunk size of 0 the loop of [chunkArray] never ends on an
    array that has an item: no amount of fuel lets it return.  On the empty
    array it returns no chunk, whatever the chunk size. *)
Theorem chunkArray_zero_size_never_returns {A} (array : list A) fuel i out :
  i < length array →
  chunk_loop fuel i array 0 out = None
  ∧ ∀ n, chunkArray (@nil A) n = Some [].
Proof.
  intros Hi. split; [|done].
  revert out. induction fuel as [|fuel IH]; intros out; simpl; [done|].
  destruct (Nat.ltb_spec i (length array)); [|lia].
  rewrite Nat.add_0_r. apply IH.
Qed.

Lemma chunkArray_zero_size_never_returns_witness :
  0 < length [7; 8] ∧ chunk_loop 1000 0 [7; 8] 0 [] = None.
Proof.
  split; [simpl; lia|].
  apply (chunkArray_zero_size_never_returns [7; 8] 1000 0 []). simpl. lia.
Defined.

(** ** Further properties of the invalidation coordinator *)

(** X3.  Whatever the outcome and the faults, [deleteKeysByReference] only
    deletes: every key keeps its entry or becomes absent, and a key can only
    become absent when it is a reference key of the class or was listed in
    one of the class's reference sets. *)
Theorem deleteKeysByReference_only_deletes_its_class this reference w k :
  let referenceKeys :=
    map (fun segment => referenceKey this segment reference)
        (split "|" (tags_namespace this)) in
  let w' := snd (deleteKeysByReference this reference w) in
  store w' !! k = store w !! k
  ∨ (store w' !! k = None
     ∧ (k ∈ referenceKeys
        ∨ ∃ rk, rk ∈ referenceKeys ∧ k ∈ members_of (store w) rk)).
Proof.
  intros referenceKeys.
  destruct (deleteKeysByReference this reference w) as [r w'] eqn:Hrun. simpl.
  apply deleteKeysByReference_store in Hrun. fold referenceKeys in Hrun.
  destruct (Hrun k) as [?|[Hin Hnone]]; [by left|]. right. split; [done|].
  apply elem_of_app in Hin as [Hin|Hin]; [right|by left].
  apply elem_of_concat in Hin as (l & Hl & Hk).
  apply list_elem_of_fmap in Hl as (rk & -> & Hrk). by exists rk.
Qed.

(** X4 (class isolation).  Deleting the keys of one expiration class leaves
    the reference sets of the other class as they were, for every segment
    and every fault plan, provided no reference key of the other class is
    itself listed as a member of a reference set of the deleted class. *)
Theorem deleting_a_class_keeps_the_other this C C' w :
  C ≠ C' →
  let segments := split "|" (tags_namespace this) in
  (∀ segment segment', segment' ∈ segments →
     referenceKey this segment (token C') ∉
       members_of (store w) (referenceKey this segment' (token C))) →
  let w' := snd (deleteKeysByReference this (token C) w) in
  ∀ segment,
    store w' !! referenceKey this segment (token C') =
    store w !! referenceKey this segment (token C').
Proof.
  intros Hne segments Hfree w' segment. subst w'.
  destruct (deleteKeysByReference this (token C) w) as [r w'] eqn:Hrun. simpl.
  apply deleteKeysByReference_store in Hrun.
  destruct (Hrun (referenceKey this segment (token C'))) as [?|[Hin _]]; [done|].
  exfalso. apply elem_of_app in Hin as [Hin|Hin].
  - apply elem_of_concat in Hin as (l & Hl & Hk).
    apply list_elem_of_fmap in Hl as (rk & -> & Hrk).
    apply list_elem_of_fmap in Hrk as (segment' & -> & Hseg).
    by apply (Hfree segment segment').
  - apply list_elem_of_fmap in Hin as (segment' & Heq & _).
    destruct C, C'; try done.
    + by apply standard_forever_disjoint in Heq.
    + symmetry in Heq. by apply standard_forever_disjoint in Heq.
Qed.

Lemma deleting_a_class_keeps_the_other_witness :
  Forever ≠ Standard
  ∧ store (snd (deleteKeysByReference sample_cache (token Forever) indexed_world))
      !! "tag:users:standard_ref" = Some (Members ["app:#users|premium:u:42"]).
Proof.
  assert (Forever ≠ Standard) as Hne by discriminate.
  split; [exact Hne|].
  etransitivity;
    [apply (deleting_a_class_keeps_the_other sample_cache Forever Standard
              indexed_world Hne) with (segment := "users")
    |vm_compute; reflexivity].
  intros segment segment' Hseg.
  change (segment' ∈ ["users"; "premium"]) in Hseg.
  repeat (apply elem_of_cons in Hseg as [->|Hseg]);
    [vm_compute; intros H; by apply elem_of_nil in H..
    |by apply elem_of_nil in Hseg].
Defined.

Lemma Promise_all_deletes_members referenceKeys w w' :
  Promise_all (map deleteValues referenceKeys) w = (Ok tt, w') →
  (∀ rk rk', rk ∈ referenceKeys → rk' ∈ referenceKeys →
     rk ∉ members_of (store w) rk') →
  ∀ rk k, rk ∈ referenceKeys → k ∈ members_of (store w) rk →
    store w' !! k = None.
Proof.
  revert w. induction referenceKeys as [|rk0 rest IH]; intros w; simpl.
  - intros _ _ rk k Hrk. by apply elem_of_nil in Hrk.
  - destruct (deleteValues rk0 w) as [r1 w1] eqn:H1.
    destruct (Promise_all (map deleteValues rest) w1) as [r2 w2] eqn:H2.
    intros [= Hr <-] Hfree rk k Hrk Hk.
    destruct r1 as [[]|e]; [|done]. simpl in Hr. subst r2.
    apply deleteValues_run in H1 as (_ & _ & _ & Hdel1 & Hgone1).
    pose proof H2 as H2'.
    apply Promise_all_deleteValues in H2' as (_ & _ & _ & Hdel2 & _).
    apply elem_of_cons in Hrk as [->|Hrk].
    + eapply only_deletes_absent; [exact Hdel2|]. by apply Hgone1.
    + apply (IH w1 H2) with (rk := rk); [|done|].
      * intros a b Ha Hb Hin. apply (Hfree a b); [by right..|].
        by eapply only_deletes_members.
      * unfold members_of in *.
        destruct (Hdel1 rk) as [->|[Hin _]]; [done|].
        exfalso. apply (Hfree rk rk0); [by right|by left|done].
Qed.

(** X5.  When no command is faulted, no reference key of the class holds a
    plain value and no reference key of the class is listed in a reference
    set of the class, [deleteKeysByReference] is fulfilled and leaves
    exactly this store: the reference keys of the class and every member of
    their sets are absent, every other key is as it was. *)
Theorem deleteKeysByReference_without_faults this reference w :
  let referenceKeys :=
    map (fun segment => referenceKey this segment reference)
        (split "|" (tags_namespace this)) in
  let members := concat (map (members_of (store w)) referenceKeys) in
  no_faults w →
  (∀ rk, rk ∈ referenceKeys → ∀ v, store w !! rk ≠ Some (Value v)) →
  (∀ rk rk', rk ∈ referenceKeys → rk' ∈ referenceKeys →
     rk ∉ members_of (store w) rk') →
  ∃ w', deleteKeysByReference this reference w = (Ok tt, w')
    ∧ ∀ k, store w' !! k =
        if decide (k ∈ referenceKeys ∨ k ∈ members) then None else store w !! k.
Proof.
  intros referenceKeys members Hnf Hset Hfree.
  destruct (deleteKeysByReference_no_faults this reference w Hnf Hset)
    as (w' & Hrun & _ & Hkeys).
  exists w'. split; [done|]. intros k.
  pose proof (deleteKeysByReference_store _ _ _ _ _ Hrun) as Hdel.
  fold referenceKeys members in Hdel.
  destruct (decide (k ∈ referenceKeys ∨ k ∈ members)) as [[Hk|Hk]|Hout].
  - by apply Hkeys.
  - rewrite deleteKeysByReference_unfold in Hrun.
    destruct (getNamespace this w) as [[ns|e] w1] eqn:Hns; [|done].
    apply getNamespace_spec in Hns as (_ & Hs1 & _ & Hname & _).
    rewrite (Hname ns eq_refl) in Hrun. simpl in Hrun. fold referenceKeys in Hrun.
    destruct (Promise_all (map deleteValues referenceKeys) w1) as [[[]|e] w2] eqn:Hall;
      [|done].
    apply store_del_spec in Hrun as (_ & _ & Hdel' & _).
    eapply only_deletes_absent; [exact Hdel'|].
    apply elem_of_concat in Hk as (l & Hl & Hk).
    apply list_elem_of_fmap in Hl as (rk & -> & Hrk).
    apply (Promise_all_deletes_members referenceKeys w1 w2 Hall) with (rk := rk);
      rewrite ?Hs1; done.
  - destruct (Hdel k) as [?|[Hin _]]; [done|].
    exfalso. apply Hout. apply elem_of_app in Hin as [?|?]; [by right|by left].
Qed.

Lemma deleteKeysByReference_without_faults_witness :
  no_faults indexed_world
  ∧ ∃ w', deleteKeysByReference sample_cache "standard_ref" indexed_world = (Ok tt, w')
      ∧ store w' !! "app:#users|premium:u:42" = None.
Proof.
  assert (no_faults indexed_world) as Hnf by constructor.
  split; [exact Hnf|].
  destruct (deleteKeysByReference_without_faults sample_cache "standard_ref"
              indexed_world Hnf) as (w' & Hrun & Hstore).
  - intros rk Hrk v.
    change (rk ∈ ["tag:users:standard_ref"; "tag:premium:standard_ref"]) in Hrk.
    repeat (apply elem_of_cons in Hrk as [->|Hrk]);
      [vm_compute; discriminate..|by apply elem_of_nil in Hrk].
  - intros rk rk' Hrk Hrk'.
    change (rk' ∈ ["tag:users:standard_ref"; "tag:premium:standard_ref"]) in Hrk'.
    change (rk ∈ ["tag:users:standard_ref"; "tag:premium:standard_ref"]) in Hrk.
    repeat (apply elem_of_cons in Hrk' as [->|Hrk']);
      [repeat (apply elem_of_cons in Hrk as [->|Hrk]);
         [vm_compute; intros H;
          repeat (apply elem_of_cons in H as [H|H]; [discriminate H|]);
          by apply elem_of_nil in H..
         |by apply elem_of_nil in Hrk]..
      |by apply elem_of_nil in Hrk'].
  - exists w'. split; [exact Hrun|]. rewrite Hstore. vm_compute. reflexivity.
Defined.

Lemma opaque_call_no_faults c w :
  no_faults w →
  ∃ w', call c opaque_sem w = (Ok tt, w') ∧ no_faults w'
    ∧ store w' = store w
    ∧ trace w' = trace w ++ [Issue c; Settle c true].
Proof.
  intros Hnf. destruct (call c opaque_sem w) as [r w'] eqn:Hc.
  apply call_spec in Hc as (Htr & Hf & [(Hbad & _)|(_ & Hsem)]).
  - by destruct (no_faults_head w Hnf).
  - injection Hsem as <- Hs. exists w'. split; [done|].
    split; [by eapply no_faults_tail|]. by split.
Qed.

Lemma deleteKeysByReference_fulfilled_keys this reference w w' :
  deleteKeysByReference this reference w = (Ok tt, w') →
  ∀ segment, segment ∈ split "|" (tags_namespace this) →
    store w' !! referenceKey this segment reference = None.
Proof.
  rewrite deleteKeysByReference_unfold.
  destruct (getNamespace this w) as [[ns|e] w1] eqn:Hns; [|done].
  apply getNamespace_spec in Hns as (_ & _ & _ & Hname & _).
  rewrite (Hname ns eq_refl). simpl.
  destruct (Promise_all _ w1) as [[[]|e] w2]; [|done].
  intros Hdel segment Hseg.
  apply store_del_spec in Hdel as (_ & _ & _ & Hfinal & _).
  rewrite Hfinal by done. rewrite lookup_del_keys.
  match goal with |- context [decide ?P] => destruct (decide P) as [_|Hnin] end;
    [done|].
  exfalso. apply Hnin. apply list_elem_of_fmap. by exists segment.
Qed.

Lemma flush_no_faults this w :
  no_faults w →
  (∀ C segment, segment ∈ split "|" (tags_namespace this) →
     ∀ v, store w !! referenceKey this segment (token C) ≠ Some (Value v)) →
  ∃ w1 w2 w',
    deleteForeverKeys this w = (Ok tt, w1)
    ∧ deleteStandardKeys this w1 = (Ok tt, w2)
    ∧ flush this w = (Ok tt, w')
    ∧ no_faults w'
    ∧ store w' = store w2
    ∧ last (issued (new_events w w')) = Some SUPER_FLUSH.
Proof.
  intros Hnf Hset. rewrite flush_unfold. unfold deleteForeverKeys, deleteStandardKeys.
  destruct (deleteKeysByReference_no_faults this REFERENCE_KEY_FOREVER w Hnf)
    as (w1 & HF & Hnf1 & _).
  { intros rk (segment & -> & Hseg)%list_elem_of_fmap. by apply (Hset Forever). }
  rewrite HF.
  destruct (deleteKeysByReference_no_faults this REFERENCE_KEY_STANDARD w1 Hnf1)
    as (w2 & HS & Hnf2 & _).
  { intros rk (segment & -> & Hseg)%list_elem_of_fmap.
    eapply only_deletes_keeps_set;
      [exact (deleteKeysByReference_store _ _ _ _ _ HF)|].
    by apply (Hset Standard). }
  rewrite HS. simpl. unfold super_flush.
  destruct (opaque_call_no_faults SUPER_FLUSH w2 Hnf2) as (w' & -> & Hnf' & Hs & Htr).
  exists w1, w2, w'. repeat (split; [done|]).
  apply deleteKeysByReference_run in HF as (evsF & HtrF & _).
  apply deleteKeysByReference_run in HS as (evsS & HtrS & _).
  rewrite (new_events_app w w'
             ((evsF ++ evsS ++ [Issue SUPER_FLUSH]) ++ [Settle SUPER_FLUSH true]))
    by (rewrite Htr, HtrS, HtrF, <- !app_assoc; done).
  rewrite !issued_app. simpl. rewrite app_nil_r, !app_assoc. apply last_snoc.
Qed.

(** X6.  When no command is faulted and no reference key of either class
    holds a plain value, [flush] is fulfilled: both class deletions are
    fulfilled, [super.flush] is the last command sent, and afterwards every
    reference key of both classes is absent. *)
Theorem flush_without_faults this w :
  no_faults w →
  (∀ C segment, segment ∈ split "|" (tags_namespace this) →
     ∀ v, store w !! referenceKey this segment (token C) ≠ Some (Value v)) →
  ∃ w', flush this w = (Ok tt, w')
    ∧ last (issued (new_events w w')) = Some SUPER_FLUSH
    ∧ ∀ C segment, segment ∈ split "|" (tags_namespace this) →
        store w' !! referenceKey this segment (token C) = None.
Proof.
  intros Hnf Hset.
  destruct (flush_no_faults this w Hnf Hset) as (w1 & w2 & w' & HF & HS & Hrun & _ & Hs & Hlast).
  exists w'. split; [done|]. split; [done|].
  intros C segment Hseg. rewrite Hs. destruct C.
  - eapply only_deletes_absent;
      [exact (deleteKeysByReference_store _ _ _ _ _ HS)|].
    by apply (deleteKeysByReference_fulfilled_keys _ _ _ _ HF).
  - by apply (deleteKeysByReference_fulfilled_keys _ _ _ _ HS).
Qed.

Lemma flush_without_faults_witness :
  no_faults indexed_world
  ∧ ∃ w', flush sample_cache indexed_world = (Ok tt, w')
      ∧ store w' !! "tag:users:standard_ref" = None.
Proof.
  assert (no_faults indexed_world) as Hnf by constructor.
  split; [exact Hnf|].
  destruct (flush_without_faults sample_cache indexed_world Hnf) as (w' & Hrun & _ & Hkeys).
  - intros C segment Hseg v. change (segment ∈ ["users"; "premium"]) in Hseg.
    repeat (apply elem_of_cons in Hseg as [->|Hseg]);
      [destruct C; vm_compute; discriminate..|by apply elem_of_nil in Hseg].
  - exists w'. split; [exact Hrun|].
    apply (Hkeys Standard "users"). vm_compute. left.
Defined.

Lemma deleteKeysByReference_on_absent_sets this reference w :
  let referenceKeys :=
    map (fun segment => referenceKey this segment reference)
        (split "|" (tags_namespace this)) in
  (∀ rk, rk ∈ referenceKeys → store w !! rk = None) →
  no_faults w →
  ∃ w', deleteKeysByReference this reference w = (Ok tt, w')
    ∧ issued (new_events w w') =
        GET_NAMESPACE :: map SMEMBERS referenceKeys ++ [DEL referenceKeys]
    ∧ store w' = store w.
Proof.
  intros referenceKeys Habsent Hnf. rewrite deleteKeysByReference_unfold.
  destruct (getNamespace this w) as [rn w1] eqn:Hns.
  apply getNamespace_spec in Hns as (Htr1 & Hs1 & Hf1 & _ & Hname & _).
  rewrite (Hname (no_faults_head w Hnf)) in *. simpl. fold referenceKeys.
  destruct (Promise_all_empty referenceKeys w1) as (w2 & -> & Htr2 & Hs2 & Hnf2).
  { intros rk Hrk. left. rewrite Hs1. by apply Habsent. }
  { by eapply no_faults_tail. }
  destruct (store_del referenceKeys w2) as [r w'] eqn:Hdel.
  apply store_del_spec in Hdel as (Htr3 & _ & _ & Hfinal & Hok).
  rewrite (Hok (no_faults_head _ Hnf2)) in *.
  exists w'. split; [done|]. split.
  - erewrite new_events_app;
      [|rewrite Htr3, Htr2, Htr1, <- !app_assoc; reflexivity].
    simpl. f_equal. rewrite issued_app. f_equal.
    clear. induction referenceKeys as [|rk rest IH]; simpl; [done|by rewrite IH].
  - rewrite Hfinal by done. rewrite Hs2, Hs1. apply map_eq. intros k.
    rewrite lookup_del_keys. destruct (decide (k ∈ referenceKeys)); [|done].
    symmetry. by apply Habsent.
Qed.

(** X7 (a second flush of a class).  After a fulfilled
    [deleteKeysByReference], running it again without faults is fulfilled,
    sends no [DEL] of members (only the membership reads and the [DEL] of the
    reference keys) and leaves the store as it is. *)
Theorem deleteKeysByReference_again this reference w w1 :
  deleteKeysByReference this reference w = (Ok tt, w1) →
  no_faults w1 →
  let referenceKeys :=
    map (fun segment => referenceKey this segment reference)
        (split "|" (tags_namespace this)) in
  ∃ w2, deleteKeysByReference this reference w1 = (Ok tt, w2)
    ∧ issued (new_events w1 w2) =
        GET_NAMESPACE :: map SMEMBERS referenceKeys ++ [DEL referenceKeys]
    ∧ store w2 = store w1.
Proof.
  intros Hrun Hnf referenceKeys.
  apply deleteKeysByReference_on_absent_sets; [|done].
  intros rk (segment & -> & Hseg)%list_elem_of_fmap.
  by apply (deleteKeysByReference_fulfilled_keys _ _ _ _ Hrun).
Qed.

Lemma deleteKeysByReference_again_witness :
  let w1 := snd (deleteKeysByReference sample_cache "standard_ref" indexed_world) in
  no_faults w1
  ∧ ∃ w2, deleteKeysByReference sample_cache "standard_ref" w1 = (Ok tt, w2)
      ∧ store w2 = store w1.
Proof.
  intros w1. assert (no_faults w1) as Hnf by (vm_compute; constructor).
  split; [exact Hnf|].
  destruct (deleteKeysByReference_again sample_cache "standard_ref" indexed_world w1)
    as (w2 & Hrun & _ & Hs); [vm_compute; reflexivity|exact Hnf|].
  by exists w2.
Defined.

(** ** Further properties of the key indexer *)

Lemma sadd_present key m s :
  (∃ v, s !! key = Some (Value v))
  ∨ (∃ ms, s !! key = Some (Members ms) ∧ m ∈ ms) →
  sadd key m s = s.
Proof.
  unfold sadd. intros [(v & ->)|(ms & -> & Hm)]; [done|].
  by destruct (decide (m ∈ ms)).
Qed.

Lemma pipeline_present sadds s :
  (∀ k m, (k, m) ∈ sadds →
     (∃ v, s !! k = Some (Value v))
     ∨ (∃ ms, s !! k = Some (Members ms) ∧ m ∈ ms)) →
  foldl (fun s0 '(k, m) => sadd k m s0) s sadds = s.
Proof.
  induction sadds as [|[k m] sadds IH]; intros Hall; simpl; [done|].
  rewrite sadd_present by (apply Hall; by left).
  apply IH. intros k' m' Hin. apply Hall. by right.
Qed.

Lemma pipeline_makes_present sadds s k m :
  (k, m) ∈ sadds →
  let s' := foldl (fun s0 '(k, m) => sadd k m s0) s sadds in
  (∃ v, s' !! k = Some (Value v))
  ∨ (∃ ms, s' !! k = Some (Members ms) ∧ m ∈ ms).
Proof.
  intros Hin s'. destruct (pipeline_store sadds s) as (Hval & _ & _ & _ & Hadd).
  destruct (s !! k) as [[v|ms]|] eqn:Hk.
  - left. exists v. by apply Hval.
  - right. apply Hadd; [done|]. intros v. by rewrite Hk.
  - right. apply Hadd; [done|]. intros v. by rewrite Hk.
Qed.

(** X8 (indexing is idempotent).  Once [pushKeys] has been fulfilled,
    running it again with the same namespace, key and reference leaves the
    store exactly as it is, whether or not the second batch is faulted. *)
Theorem pushKeys_twice sha1 this namespace key reference w :
  let w1 := snd (pushKeys sha1 this namespace key reference w) in
  let w2 := snd (pushKeys sha1 this namespace key reference w1) in
  fst (pushKeys sha1 this namespace key reference w) = Ok tt →
  store w2 = store w1.
Proof.
  intros w1 w2. subst w1 w2.
  destruct (pushKeys sha1 this namespace key reference w) as [r w1] eqn:H1.
  simpl. intros ->.
  destruct (pushKeys sha1 this namespace key reference w1) as [r2 w2] eqn:H2.
  simpl.
  apply pushKeys_spec in H1 as (_ & _ & [(_ & ? & _)|(_ & _ & Hs1)]); [done|].
  apply pushKeys_spec in H2 as (_ & _ & [(_ & _ & ?)|(_ & _ & Hs2)]); [done|].
  rewrite Hs2. apply pipeline_present. intros k m Hin.
  rewrite Hs1. by apply pipeline_makes_present.
Qed.

Lemma pushKeys_twice_witness :
  let w1 := snd (pushKeys sample_digest sample_cache "users|premium" "u:42"
                   "standard_ref" fresh_world) in
  fst (pushKeys sample_digest sample_cache "users|premium" "u:42"
         "standard_ref" fresh_world) = Ok tt
  ∧ store (snd (pushKeys sample_digest sample_cache "users|premium" "u:42"
                  "standard_ref" w1)) = store indexed_world.
Proof.
  intros w1.
  assert (fst (pushKeys sample_digest sample_cache "users|premium" "u:42"
                 "standard_ref" fresh_world) = Ok tt) as Hok
    by (vm_compute; reflexivity).
  split; [exact Hok|].
  etransitivity;
    [exact (pushKeys_twice sample_digest sample_cache "users|premium" "u:42"
              "standard_ref" fresh_world Hok)
    |vm_compute; reflexivity].
Defined.

(** X9.  Indexing under one class never touches a reference key of the
    other: [pushForeverKeys] leaves every standard reference key as it was,
    and [pushStandardKeys] every forever reference key, for every segment,
    namespace and fault plan. *)
Theorem push_keeps_the_other_class sha1 this namespace key w segment :
  store (snd (pushForeverKeys sha1 this namespace key w))
    !! referenceKey this segment REFERENCE_KEY_STANDARD =
  store w !! referenceKey this segment REFERENCE_KEY_STANDARD
  ∧ store (snd (pushStandardKeys sha1 this namespace key w))
      !! referenceKey this segment REFERENCE_KEY_FOREVER =
    store w !! referenceKey this segment REFERENCE_KEY_FOREVER.
Proof.
  unfold pushForeverKeys, pushStandardKeys. split.
  - destruct (pushKeys sha1 this namespace key REFERENCE_KEY_FOREVER w)
      as [r w'] eqn:Hp.
    simpl.
    apply pushKeys_spec in Hp as (_ & _ & [(_ & _ & ->)|(_ & _ & ->)]); [done|].
    apply pipeline_store.
    intros ([k m] & Hk & Hin)%list_elem_of_fmap.
    apply list_elem_of_fmap in Hin as (segment' & [= -> ->] & _).
    by apply standard_forever_disjoint in Hk.
  - destruct (pushKeys sha1 this namespace key REFERENCE_KEY_STANDARD w)
      as [r w'] eqn:Hp.
    simpl.
    apply pushKeys_spec in Hp as (_ & _ & [(_ & _ & ->)|(_ & _ & ->)]); [done|].
    apply pipeline_store.
    intros ([k m] & Hk & Hin)%list_elem_of_fmap.
    apply list_elem_of_fmap in Hin as (segment' & [= -> ->] & _).
    symmetry in Hk. by apply standard_forever_disjoint in Hk.
Qed.

Lemma string_app_inv_tail s1 s2 t : s1 +:+ t = s2 +:+ t → s1 = s2.
Proof.
  intros H. apply (f_equal String.list_ascii_of_string) in H.
  rewrite !list_ascii_of_append in H. apply app_inv_tail in H.
  apply (f_equal String.string_of_list_ascii) in H.
  by rewrite !String.string_of_list_ascii_of_string in H.
Qed.

(** X13 (derived keys do not collide).  For one cache, the reference keys
    of two different segments differ (same class token), the fully-qualified
    keys of two different logical keys differ (same namespace), and a
    standard reference key is never a forever reference key. *)
Theorem derived_keys_do_not_collide sha1 this :
  (∀ suffix segment segment',
     referenceKey this segment suffix = referenceKey this segment' suffix →
     segment = segment')
  ∧ (∀ namespace key key',
       fullKey sha1 this namespace key = fullKey sha1 this namespace key' →
       key = key')
  ∧ (∀ segment segment',
       referenceKey this segment (token Standard) ≠
       referenceKey this segment' (token Forever)).
Proof.
  split; [|split].
  - unfold referenceKey. intros suffix segment segment' H.
    apply (inj (String.app _)) in H. by apply string_app_inv_tail in H.
  - unfold fullKey. intros namespace key key' H.
    apply (inj (String.app _)) in H. apply (inj (String.app _)) in H.
    by apply (inj (String.app _)) in H.
  - apply standard_forever_disjoint.
Qed.

(** ** Further properties of the batch deleter *)

(** X12.  Whatever the outcome, the commands [deleteValues] sends are the
    membership read of its reference key followed by [DEL]s of non-empty
    chunks of at most 1000 keys; every key it asks to delete was a member of
    the set, and none is asked for twice.  When the read is rejected it
    sends no [DEL], leaves the store as it was, and is rejected with the
    error of the read. *)
Theorem deleteValues_commands referenceKey w :
  let w' := snd (deleteValues referenceKey w) in
  ∃ chunks,
    issued (new_events w w') = SMEMBERS referenceKey :: map DEL chunks
    ∧ NoDup (concat chunks)
    ∧ (∀ k, k ∈ concat chunks → k ∈ members_of (store w) referenceKey)
    ∧ Forall (fun chunk => 0 < length chunk ≤ 1000) chunks
    ∧ (∀ e w1, store_smembers referenceKey w = (Err e, w1) →
         chunks = [] ∧ deleteValues referenceKey w = (Err e, w1)
         ∧ store w1 = store w).
Proof.
  rewrite deleteValues_unfold.
  destruct (store_smembers referenceKey w) as [[members|e] w1] eqn:Hm;
    apply smembers_reply in Hm as (Htr & Hs & _ & Hms & _).
  - specialize (Hms members eq_refl). subst members.
    destruct (chunkArray_spec (array_from_set (members_of (store w) referenceKey)) 1000)
      as (all & -> & Hcat & Hall & _); [lia|].
    destruct (Promise_map_del all 100 w1) as [r w'] eqn:Hp. simpl.
    apply Promise_map_del_spec in Hp as (evs & Htr' & [rest Hpre] & _); [|lia].
    change (map DEL all) with (DEL <$> all) in Hpre.
    apply fmap_app_inv in Hpre as (chunks & later & Hi & _ & ->).
    exists chunks.
    rewrite (new_events_app w w'
               ([Issue (SMEMBERS referenceKey); Settle (SMEMBERS referenceKey) true] ++ evs))
      by (by rewrite Htr', Htr, <- app_assoc).
    simpl. rewrite Hi. split; [done|].
    rewrite concat_app in Hcat.
    pose proof (array_from_set_NoDup (members_of (store w) referenceKey)) as Hnd.
    rewrite <- Hcat in Hnd. apply NoDup_app in Hnd as (Hnd & _ & _).
    split; [done|]. split; [|split; [|done]].
    + intros k Hk. apply array_from_set_elem. rewrite <- Hcat.
      apply elem_of_app. by left.
    + by apply Forall_app in Hall as [? _].
  - simpl. exists [].
    rewrite (new_events_app _ _ _ Htr). simpl.
    split; [done|]. split; [constructor|]. split; [|split; [constructor|]].
    + intros k Hk. by apply elem_of_nil in Hk.
    + by intros e' w1' [= <- <-].
Qed.

(** ** Further properties of the facade *)

Lemma index_then_primitive_fulfilled sha1 this key reference (primitive : command) w :
  let run :=
    Promise_all
      [ (let* namespace := getNamespace this in
         pushKeys sha1 this namespace key reference);
        call primitive opaque_sem ] w in
  fst run = Ok tt ↔
  Forall (fun answer => snd answer = true) (settled (new_events w (snd run))).
Proof.
  simpl. unfold bind.
  destruct (getNamespace this w) as [[ns|e] w1] eqn:Hns;
    apply getNamespace_spec in Hns as (Htr1 & _).
  - destruct (pushKeys sha1 this ns key reference w1) as [r2 w2] eqn:Hp.
    apply pushKeys_spec in Hp as (Htr2 & _).
    destruct (call primitive opaque_sem w2) as [r3 w3] eqn:Hc.
    apply opaque_call_spec in Hc as (Htr3 & _). simpl.
    erewrite new_events_app; [|by rewrite Htr3, Htr2, Htr1, <- !app_assoc].
    simpl. rewrite !Forall_cons, Forall_nil. simpl.
    destruct r2 as [[]|e2], r3 as [[]|e3]; simpl; intuition congruence.
  - destruct (call primitive opaque_sem w1) as [r3 w3] eqn:Hc.
    apply opaque_call_spec in Hc as (Htr3 & _). simpl.
    erewrite new_events_app; [|by rewrite Htr3, Htr1, <- !app_assoc].
    simpl. rewrite !Forall_cons. simpl. intuition congruence.
Qed.

(** X10.  [set], [increment] and [decrement] are fulfilled exactly when
    every command they sent (the namespace resolution, the index batch and
    the primitive of the parent class) was answered with success. *)
Theorem facade_fulfilled_iff_all_answered sha1 this key value ttl delta w :
  let all_answered run :=
    Forall (fun answer => snd answer = true)
           (settled (new_events w (snd run))) in
  (fst (set sha1 this key value ttl w) = Ok tt ↔
     all_answered (set sha1 this key value ttl w))
  ∧ (fst (increment sha1 this key delta w) = Ok tt ↔
       all_answered (increment sha1 this key delta w))
  ∧ (fst (decrement sha1 this key delta w) = Ok tt ↔
       all_answered (decrement sha1 this key delta w)).
Proof.
  intros all_answered. subst all_answered. split; [|split].
  - rewrite set_unfold.
    destruct (getNamespace this w) as [[ns|e] w1] eqn:Hns;
      apply getNamespace_spec in Hns as (Htr1 & _).
    + simpl.
      destruct (pushKeys _ _ _ _ _ w1) as [r2 w2] eqn:Hp.
      apply pushKeys_spec in Hp as (Htr2 & _).
      destruct (super_set key value ttl w2) as [r3 w3] eqn:Hc.
      apply opaque_call_spec in Hc as (Htr3 & _). simpl.
      erewrite new_events_app; [|by rewrite Htr3, Htr2, Htr1, <- !app_assoc].
      simpl. rewrite !Forall_cons, Forall_nil. simpl.
      destruct r2 as [[]|e2], r3 as [[]|e3]; simpl; intuition congruence.
    + simpl. rewrite (new_events_app _ _ _ Htr1). simpl.
      rewrite !Forall_cons. simpl. intuition congruence.
  - apply index_then_primitive_fulfilled.
  - apply index_then_primitive_fulfilled.
Qed.



(** ** Indexing and then flushing *)

Lemma deleteKeysByReference_fulfilled_member this reference w w' k :
  deleteKeysByReference this reference w = (Ok tt, w') →
  (∀ segment, segment ∈ split "|" (tags_namespace this) →
     k ∈ members_of (store w) (referenceKey this segment reference)) →
  store w' !! k = None.
Proof.
  rewrite deleteKeysByReference_unfold.
  destruct (getNamespace this w) as [[ns|e] w1] eqn:Hns; [|done].
  apply getNamespace_spec in Hns as (_ & Hs1 & _ & Hname & _).
  rewrite (Hname ns eq_refl). simpl.
  destruct (Promise_all _ w1) as [[[]|e] w2] eqn:Hall; [|done].
  apply Promise_all_deleteValues in Hall as (_ & _ & _ & _ & Hgone).
  intros Hdel Hin. apply store_del_spec in Hdel as (_ & _ & Hdel & _).
  eapply only_deletes_absent; [exact Hdel|].
  pose proof (split_nonempty "|" (tags_namespace this)) as Hne.
  destruct (split "|" (tags_namespace this)) as [|segment segments]; [done|].
  apply Hgone; [done| |done]. simpl. rewrite Hs1. apply Hin. by left.
Qed.

(** X14 (index, then flush the class).  When the reference keys of the
    namespace's segments are absent and no command is faulted, [pushKeys]
    followed by [deleteKeysByReference] with the same reference are both
    fulfilled and leave the store as it was before, except that the
    fully-qualified cache key is absent: the reference sets the indexing
    created are gone again. *)
Theorem pushKeys_then_deleteKeysByReference sha1 this key reference w :
  no_faults w →
  let namespace := tags_namespace this in
  (∀ segment, segment ∈ split "|" namespace →
     store w !! referenceKey this segment reference = None) →
  ∃ w1 w2,
    pushKeys sha1 this namespace key reference w = (Ok tt, w1)
    ∧ deleteKeysByReference this reference w1 = (Ok tt, w2)
    ∧ store w2 = delete (fullKey sha1 this namespace key) (store w).
Proof.
  intros Hnf namespace Hfresh.
  set (K := fullKey sha1 this namespace key).
  set (sadds := map (fun segment => (referenceKey this segment reference, K))
                    (split "|" namespace)).
  destruct (pushKeys sha1 this namespace key reference w) as [r1 w1] eqn:Hp.
  apply pushKeys_spec in Hp as (_ & Hf1 & [(Hbad & _)|(_ & -> & Hs1)]).
  { by destruct (no_faults_head w Hnf). }
  fold K sadds in Hs1.
  assert (no_faults w1) as Hnf1 by (by eapply no_faults_tail).
  destruct (pipeline_store sadds (store w)) as (_ & Hout & _ & Hsrc & Hadd).
  rewrite <- Hs1 in Hout, Hsrc, Hadd.
  assert (∀ segment, segment ∈ split "|" namespace →
            ∃ ms, store w1 !! referenceKey this segment reference = Some (Members ms)
                  ∧ K ∈ ms) as Hindexed.
  { intros segment Hseg. apply Hadd.
    - apply list_elem_of_fmap. by exists segment.
    - intros v. by rewrite (Hfresh segment Hseg). }
  destruct (deleteKeysByReference_no_faults this reference w1 Hnf1)
    as (w2 & Hrun & _ & Hkeys).
  { intros rk (segment & -> & Hseg)%list_elem_of_fmap v.
    destruct (Hindexed segment Hseg) as (ms & -> & _). done. }
  exists w1, w2. split; [done|]. split; [done|].
  apply map_eq. intros k.
  destruct (decide (k = K)) as [->|HkK].
  - rewrite lookup_delete_eq.
    apply (deleteKeysByReference_fulfilled_member _ _ _ _ _ Hrun).
    intros segment Hseg. destruct (Hindexed segment Hseg) as (ms & Hms & HK).
    unfold members_of. by rewrite Hms.
  - rewrite lookup_delete_ne by done.
    destruct (decide (k ∈ map (fun segment => referenceKey this segment reference)
                              (split "|" namespace))) as [Hk|Hk].
    + rewrite (Hkeys k Hk).
      apply list_elem_of_fmap in Hk as (segment & -> & Hseg).
      symmetry. by apply Hfresh.
    + pose proof (deleteKeysByReference_store _ _ _ _ _ Hrun) as Hdel.
      simpl in Hdel. fold namespace in Hdel.
      transitivity (store w1 !! k).
      * destruct (Hdel k) as [?|[Hin _]]; [done|].
        exfalso. apply elem_of_app in Hin as [Hin|Hin]; [|done].
        apply elem_of_concat in Hin as (l & Hl & Hx).
        apply list_elem_of_fmap in Hl as (rk & -> & Hrk).
        apply list_elem_of_fmap in Hrk as (segment & -> & Hseg).
        apply Hsrc in Hx as [Hx|Hx].
        -- unfold members_of in Hx. rewrite (Hfresh segment Hseg) in Hx.
           by apply elem_of_nil in Hx.
        -- by apply list_elem_of_fmap in Hx as (segment' & [= _ ->] & _).
      * apply Hout. intros ([k' m] & -> & Hin)%list_elem_of_fmap.
        apply Hk. apply list_elem_of_fmap in Hin as (segment & [= -> _] & Hseg).
        apply list_elem_of_fmap. by exists segment.
Qed.

Lemma pushKeys_then_deleteKeysByReference_witness :
  no_faults fresh_world
  ∧ ∃ w1 w2,
      pushKeys sample_digest sample_cache "users|premium" "u:42" "standard_ref"
        fresh_world = (Ok tt, w1)
      ∧ store w1 = store indexed_world
      ∧ deleteKeysByReference sample_cache "standard_ref" w1 = (Ok tt, w2)
      ∧ store w2 = ∅.
Proof.
  assert (no_faults fresh_world) as Hnf by constructor.
  split; [exact Hnf|].
  destruct (pushKeys_then_deleteKeysByReference sample_digest sample_cache "u:42"
              "standard_ref" fresh_world Hnf) as (w1 & w2 & Hpush & Hdel & Hstore).
  { intros segment _. apply lookup_empty. }
  exists w1, w2. split; [exact Hpush|]. split.
  - assert (w1 = snd (pushKeys sample_digest sample_cache
                        (tags_namespace sample_cache) "u:42"
                        "standard_ref" fresh_world)) as -> by (by rewrite Hpush).
    vm_compute. reflexivity.
  - split; [exact Hdel|]. rewrite Hstore. apply delete_empty.
Defined.

(** ** What the class deletions never do *)

(** X15.  Whatever their outcomes and the faults, the two class deletions
    that [flush] joins before it calls [super.flush] only delete: every key
    keeps its entry or becomes absent, and a key can only become absent when
    it is a reference key of one of the two classes or was listed in one of
    their reference sets. *)
Theorem flush_deletions_only_delete this w k :
  let w2 := snd (Promise_all [deleteForeverKeys this; deleteStandardKeys this] w) in
  store w2 !! k = store w !! k
  ∨ (store w2 !! k = None
     ∧ ∃ C segment, segment ∈ split "|" (tags_namespace this)
         ∧ (k = referenceKey this segment (token C)
            ∨ k ∈ members_of (store w) (referenceKey this segment (token C)))).
Proof.
  simpl. unfold deleteForeverKeys, deleteStandardKeys.
  destruct (deleteKeysByReference this REFERENCE_KEY_FOREVER w) as [rF w1] eqn:HF.
  destruct (deleteKeysByReference this REFERENCE_KEY_STANDARD w1) as [rS w2] eqn:HS.
  apply deleteKeysByReference_store in HF. apply deleteKeysByReference_store in HS.
  simpl in HF, HS. simpl.
  assert (∀ C,
            k ∈ concat (map (members_of (store w))
                          (map (fun segment => referenceKey this segment (token C))
                               (split "|" (tags_namespace this)))) ++
                map (fun segment => referenceKey this segment (token C))
                    (split "|" (tags_namespace this)) →
            ∃ C segment, segment ∈ split "|" (tags_namespace this)
              ∧ (k = referenceKey this segment (token C)
                 ∨ k ∈ members_of (store w) (referenceKey this segment (token C))))
    as Hwhere.
  { intros C Hin. exists C. apply elem_of_app in Hin as [Hin|Hin].
    - apply elem_of_concat in Hin as (l & Hl & Hk).
      apply list_elem_of_fmap in Hl as (rk & -> & Hrk).
      apply list_elem_of_fmap in Hrk as (segment & -> & Hseg).
      exists segment. split; [done|]. by right.
    - apply list_elem_of_fmap in Hin as (segment & -> & Hseg).
      exists segment. split; [done|]. by left. }
  destruct (HS k) as [HeqS|[HinS HnoneS]].
  - rewrite HeqS. destruct (HF k) as [?|[HinF HnoneF]]; [by left|].
    right. split; [done|]. by apply (Hwhere Forever).
  - right. split; [done|]. apply (Hwhere Standard).
    apply elem_of_app in HinS as [HinS|HinS]; apply elem_of_app; [left|by right].
    apply elem_of_concat in HinS as (l & Hl & Hk).
    apply list_elem_of_fmap in Hl as (rk & -> & Hrk).
    apply elem_of_concat. exists (members_of (store w) rk). split.
    + apply list_elem_of_fmap. by exists rk.
    + by eapply only_deletes_members.
Qed.
